(** * Verification of HQV_dipole.py (twoComponent-BEC)

    Shallow embedding of the split-step driver script [src/HQV_dipole.py]:
    the real-time loop with its HDF5 snapshot store, the imaginary-time
    relaxation loop, the renormalisation and phase-locking arithmetic, and
    the propagators of [include/symplecticMethod.py] (that module is not part
    of the sources at hand; its two functions are modelled from the spec). *)

From Stdlib Require Import List Arith Lia Bool ZArith Reals Lra.
Import ListNotations.

(** numpy's [np.mod] on non-negative integers; [np.mod(a, 0)] is [0]. *)
Definition np_mod (a b : nat) : nat := if Nat.eqb b 0 then 0 else a mod b.

(** ** Real-time evolution and the snapshot store (lines 107-164) *)
Module RealTime.
Section Loop.

(** The wavefunction pair [psi_1_k, psi_2_k] in the conjugate representation. *)
Variable St : Type.
(** One [(Nx, Ny)] complex64 slice of a [wavefunction/psi_*] dataset. *)
Variable Slice : Type.
(** The fill value h5py reads back for a slice that was never written. *)
Variable zero_slice : Slice.
(** One real-time split step, lines 133-147: kinetic, ifft2, potential,
    fft2, kinetic. *)
Variable rt_step : St -> St.
(** [cp.asnumpy(cp.fft.ifft2(psi_1_k))] and the same for component 2. *)
Variables spatial_1 spatial_2 : St -> Slice.
Variable Nframe : nat.

Record h5file := { ds_1 : list Slice; ds_2 : list Slice }.

(** [dataset.resize((Nx, Ny, n))] along the growable third axis. *)
Definition resize_ds (n : nat) (ds : list Slice) : list Slice :=
  firstn n ds ++ repeat zero_slice (n - length ds).

(** [dataset[:, :, i] = v]; h5py raises when [i] is out of range. *)
Fixpoint set_slice (ds : list Slice) (i : nat) (v : Slice) : option (list Slice) :=
  match ds, i with
  | [], _ => None
  | _ :: ds', 0 => Some (v :: ds')
  | d :: ds', S i' => option_map (cons d) (set_slice ds' i' v)
  end.

(** The storage operations of the save branch (lines 151-157), each of which
    may fail (I/O error, disk full) and then raises. *)
Inductive io_op := OpenRW | Resize1 | Resize2 | Write1 | Write2 | Close.

(** Exceptions with the file contents left on disk. *)
Inductive exc (A : Type) := Ret (a : A) (f : h5file) | Exc (f : h5file).
Arguments Ret {A} a f.
Arguments Exc {A} f.

Definition M (A : Type) := h5file -> exc A.
Definition ret {A} (a : A) : M A := fun f => Ret a f.
Definition bind {A B} (m : M A) (k : A -> M B) : M B :=
  fun f => match m f with Ret a f' => k a f' | Exc f' => Exc f' end.

Notation "x <- m ;; k" := (bind m (fun x => k)) (at level 61, m at next level, right associativity).
Notation "m ;;; k" := (bind m (fun _ => k)) (at level 61, right associativity).

Section Storage.
(** [io_ok i op]: whether storage operation [op] succeeds at loop index [i]. *)
Variable io_ok : nat -> io_op -> bool.

Definition io (i : nat) (op : io_op) (g : h5file -> option h5file) : M unit :=
  fun f => if io_ok i op then
             match g f with Some f' => Ret tt f' | None => Exc f end
           else Exc f.

(** Lines 151-157: the [with h5py.File(data_path, 'r+')] block. *)
Definition save_block (i si : nat) (s1 s2 : Slice) : M unit :=
  io i OpenRW Some ;;;
  io i Resize1 (fun f => Some {| ds_1 := resize_ds (si + 1) (ds_1 f); ds_2 := ds_2 f |}) ;;;
  io i Resize2 (fun f => Some {| ds_1 := ds_1 f; ds_2 := resize_ds (si + 1) (ds_2 f) |}) ;;;
  io i Write1 (fun f => option_map (fun d => {| ds_1 := d; ds_2 := ds_2 f |})
                                    (set_slice (ds_1 f) si s1)) ;;;
  io i Write2 (fun f => option_map (fun d => {| ds_1 := ds_1 f; ds_2 := d |})
                                    (set_slice (ds_2 f) si s2)) ;;;
  io i Close Some.

(** The loop state; [saves] logs [(step, index)] of each completed append. *)
Record rtstate := { psi : St; save_index : nat; file : h5file; saves : list (nat * nat) }.

(** An exception in the save branch ends the script. *)
Inductive run := Running (s : rtstate) | Crashed (s : rtstate).

(** The save branch, lines 150-158: [save_index += 1] runs only once the
    [with] block has been left normally. *)
Definition save_step (i : nat) (s : rtstate) : run :=
  match save_block i (save_index s) (spatial_1 (psi s)) (spatial_2 (psi s)) (file s) with
  | Ret _ f' => Running {| psi := psi s; save_index := S (save_index s); file := f';
                           saves := saves s ++ [(i + 1, save_index s)] |}
  | Exc f' => Crashed {| psi := psi s; save_index := save_index s; file := f';
                         saves := saves s |}
  end.

(** One iteration of [for i in range(Nt)] (lines 131-164); printing and
    [t += dt] do not touch the state modelled here. *)
Definition body (i : nat) (s : rtstate) : run :=
  let s' := {| psi := rt_step (psi s); save_index := save_index s; file := file s;
               saves := saves s |} in
  if Nat.eqb (np_mod (i + 1) Nframe) 0 then save_step i s' else Running s'.

Fixpoint rt_loop (k : nat) (s : rtstate) : run :=
  match k with
  | 0 => Running s
  | S k' => match rt_loop k' s with
            | Running s' => body k' s'
            | Crashed c => Crashed c
            end
  end.

(** Lines 121-122: both datasets created with shape [(Nx, Ny, 1)]. *)
Definition created : h5file := {| ds_1 := [zero_slice]; ds_2 := [zero_slice] |}.

Definition init (psi0 : St) : rtstate :=
  {| psi := psi0; save_index := 0; file := created; saves := [] |}.

Definition real_time (Nt : nat) (psi0 : St) : run := rt_loop Nt (init psi0).

End Storage.

(** The storage never fails. *)
Definition io_always : nat -> io_op -> bool := fun _ _ => true.

(** The frames the spec expects: the state after steps [Nframe], [2 Nframe], ... *)
Definition snaps (sp : St -> Slice) (psi0 : St) (m : nat) : list Slice :=
  map (fun j => sp (Nat.iter ((j + 1) * Nframe) rt_step psi0)) (seq 0 m).

End Loop.

Arguments Ret {Slice A} a f.
Arguments Exc {Slice A} f.
Arguments Running {St Slice} s.
Arguments psi {St Slice} r.
Arguments save_index {St Slice} r.
Arguments file {St Slice} r.
Arguments saves {St Slice} r.
Arguments ds_1 {Slice} h.
Arguments ds_2 {Slice} h.
Arguments Crashed {St Slice} s.
End RealTime.

(** ** Scalars

    The array arithmetic of the script is written once over a scalar type
    with the operations numpy/cupy use.  Two instances: exact real
    arithmetic ([R]), and a floating-point-like extension of [R] with
    infinities and NaN that keeps numpy's behaviour at a zero divisor. *)
Module Num.

Record scalar (K : Type) := {
  s_of_R : R -> K;
  s_add : K -> K -> K;
  s_sub : K -> K -> K;
  s_mul : K -> K -> K;
  s_div : K -> K -> K;
  s_sqrt : K -> K;
  s_exp : K -> K;
  s_cos : K -> K;
  s_sin : K -> K;
  (** [np.arctan2(y, x)] *)
  s_atan2 : K -> K -> K
}.
Arguments s_of_R {K} s r.
Arguments s_add {K} s x y.
Arguments s_sub {K} s x y.
Arguments s_mul {K} s x y.
Arguments s_div {K} s x y.
Arguments s_sqrt {K} s x.
Arguments s_exp {K} s x.
Arguments s_cos {K} s x.
Arguments s_sin {K} s x.
Arguments s_atan2 {K} s y x.

Local Open Scope R_scope.

(** [np.arctan2(y, x)] on finite arguments, with [arctan2(0, 0) = 0]. *)
Definition atan2R (y x : R) : R :=
  if Rlt_dec 0 x then atan (y / x)
  else if Rlt_dec x 0 then
    (if Rle_dec 0 y then atan (y / x) + PI else atan (y / x) - PI)
  else if Rlt_dec 0 y then PI / 2
  else if Rlt_dec y 0 then - (PI / 2)
  else 0.

Definition SR : scalar R :=
  {| s_of_R := fun r => r; s_add := Rplus; s_sub := Rminus; s_mul := Rmult;
     s_div := Rdiv; s_sqrt := sqrt; s_exp := exp; s_cos := cos; s_sin := sin;
     s_atan2 := atan2R |}.

(** Doubles without rounding: finite values, signed infinities, NaN. *)
Inductive xR := Fin (r : R) | Inf (neg : bool) | NaN.

Definition is_neg (r : R) : bool := if Rlt_dec r 0 then true else false.
Definition is_zero (r : R) : bool := if Req_EM_T r 0 then true else false.

Definition xadd (a b : xR) : xR :=
  match a, b with
  | Fin x, Fin y => Fin (x + y)
  | Inf s, Fin _ | Fin _, Inf s => Inf s
  | Inf s, Inf t => if Bool.eqb s t then Inf s else NaN
  | _, _ => NaN
  end.

Definition xopp (a : xR) : xR :=
  match a with Fin x => Fin (- x) | Inf s => Inf (negb s) | NaN => NaN end.

Definition xsub (a b : xR) : xR := xadd a (xopp b).

Definition xmul (a b : xR) : xR :=
  match a, b with
  | Fin x, Fin y => Fin (x * y)
  | Inf s, Fin y | Fin y, Inf s => if is_zero y then NaN else Inf (xorb s (is_neg y))
  | Inf s, Inf t => Inf (xorb s t)
  | _, _ => NaN
  end.

Definition xdiv (a b : xR) : xR :=
  match a, b with
  | Fin x, Fin y =>
      if is_zero y then (if is_zero x then NaN else Inf (is_neg x)) else Fin (x / y)
  | Fin _, Inf _ => Fin 0
  | Inf s, Fin y => Inf (xorb s (is_neg y))
  | _, _ => NaN
  end.

Definition xsqrt (a : xR) : xR :=
  match a with
  | Fin x => if is_neg x then NaN else Fin (sqrt x)
  | Inf false => Inf false
  | _ => NaN
  end.

Definition xexp (a : xR) : xR :=
  match a with Fin x => Fin (exp x) | Inf false => Inf false | Inf true => Fin 0 | NaN => NaN end.

Definition xcos (a : xR) : xR := match a with Fin x => Fin (cos x) | _ => NaN end.
Definition xsin (a : xR) : xR := match a with Fin x => Fin (sin x) | _ => NaN end.

Definition xatan2 (y x : xR) : xR :=
  match y, x with
  | NaN, _ | _, NaN => NaN
  | Fin a, Fin b => Fin (atan2R a b)
  | Fin a, Inf false => Fin 0
  | Fin a, Inf true => Fin (if is_neg a then - PI else PI)
  | Inf s, Fin _ => Fin (if s then - (PI / 2) else PI / 2)
  | Inf s, Inf t =>
      Fin ((if s then -1 else 1) * (if t then 3 * PI / 4 else PI / 4))
  end.

Definition SX : scalar xR :=
  {| s_of_R := Fin; s_add := xadd; s_sub := xsub; s_mul := xmul; s_div := xdiv;
     s_sqrt := xsqrt; s_exp := xexp; s_cos := xcos; s_sin := xsin; s_atan2 := xatan2 |}.

End Num.

(** ** Grid, fields and the split-step operators (lines 12-40, 56-102) *)
Module Field.
Import Num.
Local Open Scope R_scope.

(** Lines 12-18 and 24-27: the grid and its conjugate (k-space) grid. *)
Definition Nx : nat := 128.
Definition Ny : nat := 128.
Definition Mx : nat := Nat.div Nx 2.
Definition My : nat := Nat.div Ny 2.
Definition dx : R := 1.
Definition dy : R := 1.
Definition dkx : R := PI / (INR Mx * dx).
Definition dky : R := PI / (INR My * dy).

(** [kx = cp.arange(-Mx, Mx) * dkx] *)
Definition kx (j : nat) : R := (INR j - INR Mx) * dkx.
Definition ky (j : nat) : R := (INR j - INR My) * dky.

(** [Kx, Ky = cp.meshgrid(kx, ky)] then [cp.fft.fftshift] on both axes;
    arrays are indexed [row m] (the [y] axis), [column n] (the [x] axis). *)
Definition Kx (m n : nat) : R := kx (Nat.modulo (n + Mx) Nx).
Definition Ky (m n : nat) : R := ky (Nat.modulo (m + My) Ny).

(** Lines 30-40. *)
Definition g1 : R := 4.
Definition g2 : R := 4.
Definition g12 : R := 3.
Definition mu_1 : R := 1.
Definition mu_2 : R := 1.
Definition dt : R := 1 / 100.
Definition n_iter : nat := 2000.

Section Generic.
Context {K : Type} (Sc : scalar K).

Local Notation "# r" := (s_of_R Sc r) (at level 1, format "# r").
Local Infix "+." := (s_add Sc) (at level 50, left associativity).
Local Infix "-." := (s_sub Sc) (at level 50, left associativity).
Local Infix "*." := (s_mul Sc) (at level 40, left associativity).
Local Infix "/." := (s_div Sc) (at level 40, left associativity).

(** Complex numbers as (real part, imaginary part). *)
Definition cpx : Type := (K * K)%type.

Definition Cadd (z w : cpx) : cpx := (fst z +. fst w, snd z +. snd w).
Definition Cmul (z w : cpx) : cpx :=
  (fst z *. fst w -. snd z *. snd w, fst z *. snd w +. snd z *. fst w).
Definition Cdiv (z w : cpx) : cpx :=
  let d := fst w *. fst w +. snd w *. snd w in
  ((fst z *. fst w +. snd z *. snd w) /. d, (snd z *. fst w -. fst z *. snd w) /. d).
(** A real scalar times a complex array element, and its division by one. *)
Definition Cscale (a : K) (z : cpx) : cpx := (a *. fst z, a *. snd z).
Definition Cdiv_re (z : cpx) (a : K) : cpx := (fst z /. a, snd z /. a).
Definition Cexp (z : cpx) : cpx :=
  (s_exp Sc (fst z) *. s_cos Sc (snd z), s_exp Sc (fst z) *. s_sin Sc (snd z)).
(** [cp.abs] and [cp.angle]. *)
Definition Cabs (z : cpx) : K := s_sqrt Sc (fst z *. fst z +. snd z *. snd z).
Definition Cangle (z : cpx) : K := s_atan2 Sc (snd z) (fst z).
(** [1j * x] for a real array element [x]. *)
Definition Ci (x : K) : cpx := (#0, x).
(** [-1j * x] *)
Definition Cneg_i (z : cpx) : cpx := Cmul (#0, #(-1)) z.

(** A spatial or conjugate field on the [Ny x Nx] grid. *)
Definition field : Type := nat -> nat -> cpx.

Fixpoint ksum (n : nat) (f : nat -> K) : K :=
  match n with O => #0 | S n' => ksum n' f +. f n' end.
Fixpoint csum (n : nat) (f : nat -> cpx) : cpx :=
  match n with O => (#0, #0) | S n' => Cadd (csum n' f) (f n') end.

(** [exp(sgn * 2 pi i (k m / Ny + l n / Nx))] *)
Definition twiddle (sgn : R) (k l m n : nat) : cpx :=
  let a := 2 * PI * (INR (k * m) / INR Ny + INR (l * n) / INR Nx) in
  (#(cos a), #(sgn * sin a)).

(** [cp.fft.fft2] and [cp.fft.ifft2] (numpy's normalisation: [1/(Nx Ny)] on
    the inverse). *)
Definition fft2 (f : field) : field :=
  fun k l => csum Ny (fun m => csum Nx (fun n => Cmul (f m n) (twiddle (-1) k l m n))).
Definition ifft2 (f : field) : field :=
  fun m n => Cdiv_re (csum Ny (fun k => csum Nx (fun l => Cmul (f k l) (twiddle 1 k l m n))))
                     #(INR (Ny * Nx)).

(** Lines 62-63 and 91-92: [dx * dy * cp.sum(cp.abs(psi) ** 2)]. *)
Definition atom_number (f : field) : K :=
  #(dx * dy) *. ksum Ny (fun m => ksum Nx (fun n => Cabs (f m n) *. Cabs (f m n))).

(** Modelled from the spec: [sm.kinetic_evolution(wfn_k, step, Kx, Ky)]
    (include/symplecticMethod.py), which multiplies the conjugate-domain
    field by [exp(-i * step * (Kx^2 + Ky^2) / 2)]. *)
Definition kinetic_evolution (wfn_k : field) (step : cpx) : field :=
  fun m n => Cmul (wfn_k m n)
                  (Cexp (Cneg_i (Cmul step (#((Kx m n ^ 2 + Ky m n ^ 2) / 2), #0)))).

(** Modelled from the spec: [sm.potential_evolution(psi_1, psi_2, step, g1,
    g2, g12, mu_1, mu_2)] (include/symplecticMethod.py), which returns
    [psi_1 * exp(-i * step * (g1 |psi_1|^2 + g12 |psi_2|^2 - mu_1))] and
    [psi_2 * exp(-i * step * (g2 |psi_2|^2 + g12 |psi_1|^2 - mu_2))]
    pointwise, both from the input densities. *)
Definition potential_evolution (psi_1 psi_2 : field) (step : cpx) (g1 g2 g12 mu_1 mu_2 : K)
  : field * field :=
  ((fun m n =>
     let d1 := Cabs (psi_1 m n) *. Cabs (psi_1 m n) in
     let d2 := Cabs (psi_2 m n) *. Cabs (psi_2 m n) in
     Cmul (psi_1 m n) (Cexp (Cneg_i (Cmul step (g1 *. d1 +. g12 *. d2 -. mu_1, #0))))),
  (fun m n =>
     let d1 := Cabs (psi_1 m n) *. Cabs (psi_1 m n) in
     let d2 := Cabs (psi_2 m n) *. Cabs (psi_2 m n) in
     Cmul (psi_2 m n) (Cexp (Cneg_i (Cmul step (g2 *. d2 +. g12 *. d1 -. mu_2, #0)))))).

(** Lines 93-94: [cp.sqrt(atom_num) * cp.fft.ifft2(psi_k) / cp.sqrt(atom_num_new)],
    on the spatial field [f = ifft2(psi_k)]. *)
Definition renormalise (atom_num atom_num_new : K) (f : field) : field :=
  fun m n => Cdiv_re (Cscale (s_sqrt Sc atom_num) (f m n)) (s_sqrt Sc atom_num_new).

(** Lines 99-100: [psi *= cp.exp(1j * theta_fix) / cp.exp(1j * cp.angle(psi))]. *)
Definition fix_phase (theta_fix : nat -> nat -> K) (psi : field) : field :=
  fun m n => Cmul (psi m n) (Cdiv (Cexp (Ci (theta_fix m n))) (Cexp (Ci (Cangle (psi m n))))).

(** Lines 48-67: the initial state; [theta] is the vortex phase returned by
    [get_phase]. *)
Definition n0 : nat -> nat -> K := fun _ _ => #1.
Definition psi_1_init (theta : nat -> nat -> K) : field :=
  fun m n => Cmul (s_sqrt Sc (n0 m n /. #2), #0) (Cexp (Ci (theta m n))).
Definition psi_2_init : field := fun m n => (s_sqrt Sc (n0 m n /. #2), #0).
Definition theta_fix (psi : field) : nat -> nat -> K := fun m n => Cangle (psi m n).

(** The variables of the imaginary-time loop. *)
Record gstate := {
  psi_1 : field; psi_2 : field; psi_1_k : field; psi_2_k : field
}.

(** The constants the loop reads: the atom numbers of lines 62-63 and the
    phases of lines 66-67. *)
Record gconst := {
  atom_num_1 : K; atom_num_2 : K;
  theta_fix_1 : nat -> nat -> K; theta_fix_2 : nat -> nat -> K
}.

(** [-1j * dt] *)
Definition imag_dt : cpx := Cneg_i (#dt, #0).

(** One iteration of [for i in range(2000)], lines 73-102, statement by
    statement. *)
Definition relax_body (c : gconst) (st : gstate) : gstate :=
  let psi_1_k := kinetic_evolution (psi_1_k st) imag_dt in
  let psi_2_k := kinetic_evolution (psi_2_k st) imag_dt in
  let psi_1 := ifft2 psi_1_k in
  let psi_2 := ifft2 psi_2_k in
  let (psi_1, psi_2) :=
    potential_evolution psi_1 psi_2 imag_dt #g1 #g2 #g12 #mu_1 #mu_2 in
  let psi_1_k := fft2 psi_1 in
  let psi_2_k := fft2 psi_2 in
  let psi_1_k := kinetic_evolution psi_1_k imag_dt in
  let psi_2_k := kinetic_evolution psi_2_k imag_dt in
  let atom_num_new_1 := atom_number (ifft2 psi_1_k) in
  let atom_num_new_2 := atom_number (ifft2 psi_2_k) in
  let psi_1_k := fft2 (renormalise (atom_num_1 c) atom_num_new_1 (ifft2 psi_1_k)) in
  let psi_2_k := fft2 (renormalise (atom_num_2 c) atom_num_new_2 (ifft2 psi_2_k)) in
  let psi_1 := ifft2 psi_1_k in
  let psi_2 := ifft2 psi_2_k in
  let psi_1 := fix_phase (theta_fix_1 c) psi_1 in
  let psi_2 := fix_phase (theta_fix_2 c) psi_2 in
  {| psi_1 := psi_1; psi_2 := psi_2; psi_1_k := fft2 psi_1; psi_2_k := fft2 psi_2 |}.

(** The loop, with a count of the iterations it has completed. *)
Fixpoint relax_loop (k : nat) (c : gconst) (st : gstate) (done : nat) : gstate * nat :=
  match k with
  | O => (st, done)
  | S k' => relax_loop k' c (relax_body c st) (S done)
  end.

Definition relax (c : gconst) (st : gstate) : gstate * nat := relax_loop n_iter c st 0.

(** The atom numbers [atom_num_new_1] and [atom_num_new_2] that the
    renormalisation of an iteration divides by (lines 73-92), computed from
    the state the iteration starts in. *)
Definition renorm_divisors (st : gstate) : K * K :=
  let psi_1_k := kinetic_evolution (psi_1_k st) imag_dt in
  let psi_2_k := kinetic_evolution (psi_2_k st) imag_dt in
  let psi_1 := ifft2 psi_1_k in
  let psi_2 := ifft2 psi_2_k in
  let (psi_1, psi_2) :=
    potential_evolution psi_1 psi_2 imag_dt #g1 #g2 #g12 #mu_1 #mu_2 in
  let psi_1_k := fft2 psi_1 in
  let psi_2_k := fft2 psi_2 in
  let psi_1_k := kinetic_evolution psi_1_k imag_dt in
  let psi_2_k := kinetic_evolution psi_2_k imag_dt in
  let atom_num_new_1 := atom_number (ifft2 psi_1_k) in
  let atom_num_new_2 := atom_number (ifft2 psi_2_k) in
  (atom_num_new_1, atom_num_new_2).

(** Lines 56-67: the state and the constants the loop starts from. *)
Definition gstate_init (theta : nat -> nat -> K) : gstate :=
  {| psi_1 := psi_1_init theta; psi_2 := psi_2_init;
     psi_1_k := fft2 (psi_1_init theta); psi_2_k := fft2 psi_2_init |}.

Definition gconst_init (theta : nat -> nat -> K) : gconst :=
  {| atom_num_1 := atom_number (psi_1_init theta); atom_num_2 := atom_number psi_2_init;
     theta_fix_1 := theta_fix (psi_1_init theta); theta_fix_2 := theta_fix psi_2_init |}.

(** The potential step written as two in-place component updates, each
    reading the densities taken before either update (the spec's
    simultaneity requirement), in both orders; compared with
    [potential_evolution] below. *)
Definition density (f : field) : nat -> nat -> K := fun m n => Cabs (f m n) *. Cabs (f m n).

Definition update_component (d_self d_other : nat -> nat -> K) (step : cpx) (g g12 mu : K)
    (psi : field) : field :=
  fun m n => Cmul (psi m n) (Cexp (Cneg_i (Cmul step (g *. d_self m n +. g12 *. d_other m n -. mu, #0)))).

Definition potential_sequential_12 (psi_1 psi_2 : field) (step : cpx) (g1 g2 g12 mu_1 mu_2 : K)
  : field * field :=
  let d1 := density psi_1 in
  let d2 := density psi_2 in
  let psi_1 := update_component d1 d2 step g1 g12 mu_1 psi_1 in
  let psi_2 := update_component d2 d1 step g2 g12 mu_2 psi_2 in
  (psi_1, psi_2).

Definition potential_sequential_21 (psi_1 psi_2 : field) (step : cpx) (g1 g2 g12 mu_1 mu_2 : K)
  : field * field :=
  let d1 := density psi_1 in
  let d2 := density psi_2 in
  let psi_2 := update_component d2 d1 step g2 g12 mu_2 psi_2 in
  let psi_1 := update_component d1 d2 step g1 g12 mu_1 psi_1 in
  (psi_1, psi_2).

(** The ground-state iteration as the spec describes it (section 4.4,
    steps 1-7), one stage at a time; compared with [relax_body] below. *)
Definition stage_kinetic_half (step : cpx) (st : gstate) : gstate :=
  {| psi_1 := psi_1 st; psi_2 := psi_2 st;
     psi_1_k := kinetic_evolution (psi_1_k st) step;
     psi_2_k := kinetic_evolution (psi_2_k st) step |}.

Definition stage_to_spatial (st : gstate) : gstate :=
  {| psi_1 := ifft2 (psi_1_k st); psi_2 := ifft2 (psi_2_k st);
     psi_1_k := psi_1_k st; psi_2_k := psi_2_k st |}.

Definition stage_potential (step : cpx) (st : gstate) : gstate :=
  let p := potential_evolution (psi_1 st) (psi_2 st) step #g1 #g2 #g12 #mu_1 #mu_2 in
  {| psi_1 := fst p; psi_2 := snd p; psi_1_k := psi_1_k st; psi_2_k := psi_2_k st |}.

Definition stage_to_conjugate (st : gstate) : gstate :=
  {| psi_1 := psi_1 st; psi_2 := psi_2 st;
     psi_1_k := fft2 (psi_1 st); psi_2_k := fft2 (psi_2 st) |}.

Definition stage_renormalise (c : gconst) (st : gstate) : gstate :=
  let f1 := ifft2 (psi_1_k st) in
  let f2 := ifft2 (psi_2_k st) in
  let r1 := renormalise (atom_num_1 c) (atom_number f1) f1 in
  let r2 := renormalise (atom_num_2 c) (atom_number f2) f2 in
  {| psi_1 := r1; psi_2 := r2; psi_1_k := fft2 r1; psi_2_k := fft2 r2 |}.

Definition stage_phase_lock (c : gconst) (st : gstate) : gstate :=
  let f1 := fix_phase (theta_fix_1 c) (ifft2 (psi_1_k st)) in
  let f2 := fix_phase (theta_fix_2 c) (ifft2 (psi_2_k st)) in
  {| psi_1 := f1; psi_2 := f2; psi_1_k := fft2 f1; psi_2_k := fft2 f2 |}.

Definition strang_iteration (c : gconst) (st : gstate) : gstate :=
  stage_phase_lock c (stage_renormalise c
    (stage_kinetic_half imag_dt (stage_to_conjugate
      (stage_potential imag_dt (stage_to_spatial (stage_kinetic_half imag_dt st)))))).

(** The real step [dt] that the real-time loop passes to both propagators. *)
Definition real_dt : cpx := (#dt, #0).

(** One iteration of the real-time loop [for i in range(Nt)], lines 133-147,
    statement by statement, for a step [step] (the loop passes [real_dt]). *)
Definition rt_body (step : cpx) (st : gstate) : gstate :=
  let psi_1_k := kinetic_evolution (psi_1_k st) step in
  let psi_2_k := kinetic_evolution (psi_2_k st) step in
  let psi_1 := ifft2 psi_1_k in
  let psi_2 := ifft2 psi_2_k in
  let (psi_1, psi_2) :=
    potential_evolution psi_1 psi_2 step #g1 #g2 #g12 #mu_1 #mu_2 in
  let psi_1_k := fft2 psi_1 in
  let psi_2_k := fft2 psi_2 in
  let psi_1_k := kinetic_evolution psi_1_k step in
  let psi_2_k := kinetic_evolution psi_2_k step in
  {| psi_1 := psi_1; psi_2 := psi_2; psi_1_k := psi_1_k; psi_2_k := psi_2_k |}.

End Generic.

(** Lines 38-39. *)
Definition Nt : nat := 150000.
Definition Nframe : nat := 300.

(** The real-time evolution of lines 131-164 in exact arithmetic: the state
    is the pair [psi_1_k, psi_2_k], a step is [rt_body real_dt], a saved
    slice is [ifft2(psi_k)] (lines 156-157), and an unwritten slice reads
    back as zero. *)
Definition rt_run (io_ok : nat -> RealTime.io_op -> bool) (st0 : @gstate R)
  : RealTime.run (@gstate R) (@field R) :=
  RealTime.real_time (@gstate R) (@field R) (fun _ _ => (0, 0)%R) (rt_body SR (real_dt SR))
    (fun st => ifft2 SR (psi_1_k st)) (fun st => ifft2 SR (psi_2_k st)) Nframe io_ok Nt st0.

(** The whole script in exact arithmetic, for the phase [theta] that
    [get_phase] returns: the initial state (lines 48-67), the relaxation
    (lines 72-102), the [initial_state] datasets (lines 125-126) and the
    real-time run (lines 131-164). *)
Definition script (io_ok : nat -> RealTime.io_op -> bool) (theta : nat -> nat -> R)
  : (@field R * @field R) * RealTime.run (@gstate R) (@field R) :=
  let st := fst (relax SR (gconst_init SR theta) (gstate_init SR theta)) in
  ((ifft2 SR (psi_1_k st), ifft2 SR (psi_2_k st)), rt_run io_ok st).

(** Fields of floating-point values that are zero, or NaN, at every point. *)
Definition zero_field (f : @field xR) : Prop := forall m n, f m n = (Fin 0, Fin 0).
Definition nan_field (f : @field xR) : Prop := forall m n, f m n = (NaN, NaN).
Definition nan_state (s : @gstate xR) : Prop :=
  nan_field (psi_1 s) /\ nan_field (psi_2 s) /\ nan_field (psi_1_k s) /\ nan_field (psi_2_k s).

End Field.

(** ** Progress messages (lines 41 and 160-164) *)
Module Clock.

(** The clock [t] after [k] iterations of the real-time loop, and the values
    [print('t = %1.4f' % t)] has shown so far, in exact arithmetic; [t]
    starts at [0] (line 41) and is printed before [t += dt]. *)
Fixpoint clock (Nframe : nat) (dt : R) (k : nat) : R * list R :=
  match k with
  | O => (0%R, [])
  | S k' => let (t, out) := clock Nframe dt k' in
            ((t + dt)%R, if Nat.eqb (np_mod k' Nframe) 0 then out ++ [t] else out)
  end.

End Clock.

(* ================================================================== *)
(** * Properties *)

(** ** The real-time loop *)
Module RealTimeFacts.
Import RealTime.

Lemma succ_div_mod (F n : nat) :
  0 < F ->
  ((n + 1) mod F = 0 /\ (n + 1) / F = S (n / F) /\ n + 1 = S (n / F) * F)
  \/ ((n + 1) mod F <> 0 /\ (n + 1) / F = n / F).
Proof.
  intros HF.
  pose proof (Nat.div_mod_eq n F) as Hn.
  pose proof (Nat.mod_bound_pos n F ltac:(lia) HF) as Hr.
  set (q := n / F) in *. set (r := n mod F) in *.
  destruct (Nat.eq_dec (r + 1) F) as [Heq | Hne].
  - left.
    assert (E : n + 1 = F * S q + 0) by lia.
    split; [|split].
    + symmetry. apply (Nat.mod_unique _ _ (S q)); lia.
    + symmetry. apply (Nat.div_unique _ _ _ 0); lia.
    + lia.
  - right.
    assert (E : n + 1 = F * q + (r + 1)) by lia.
    split.
    + assert (Hio2 : (n + 1) mod F = r + 1)
        by (symmetry; apply (Nat.mod_unique _ _ q); lia).
      lia.
    + symmetry. apply (Nat.div_unique _ _ _ (r + 1)); lia.
Qed.

Lemma set_slice_last {Slice : Type} (l : list Slice) (z v : Slice) :
  set_slice Slice (l ++ [z]) (length l) v = Some (l ++ [v]).
Proof.
  induction l as [|d l IH]; simpl; [reflexivity|].
  rewrite IH. reflexivity.
Qed.

Section Facts.
Variables (St Slice : Type) (zero_slice : Slice) (rt_step : St -> St).
Variables (spatial_1 spatial_2 : St -> Slice) (Nframe : nat).

Local Abbreviation snaps sp psi0 m := (snaps St Slice rt_step Nframe sp psi0 m).
Local Abbreviation loop := (rt_loop St Slice zero_slice rt_step spatial_1 spatial_2 Nframe).

Lemma snaps_length sp psi0 m : length (snaps sp psi0 m) = m.
Proof. unfold RealTime.snaps. now rewrite length_map, length_seq. Qed.

Lemma snaps_S sp psi0 m :
  snaps sp psi0 (S m) = snaps sp psi0 m ++ [sp (Nat.iter ((m + 1) * Nframe) rt_step psi0)].
Proof. unfold RealTime.snaps. now rewrite seq_S, map_app. Qed.

Lemma resize_pad (l : list Slice) (q : nat) :
  length l = q ->
  resize_ds Slice zero_slice (q + 1) (l ++ repeat zero_slice (1 - q)) = l ++ [zero_slice].
Proof.
  intros Hl. unfold resize_ds. destruct q as [|q'].
  - destruct l; [reflexivity | discriminate].
  - replace (1 - S q') with 0 by lia. rewrite app_nil_r.
    rewrite firstn_all2 by lia.
    replace (S q' + 1 - length l) with 1 by lia. reflexivity.
Qed.

Lemma save_block_ok (i q : nat) (s1 s2 : Slice) (l1 l2 : list Slice) :
  length l1 = q -> length l2 = q ->
  save_block Slice zero_slice io_always i q s1 s2
    {| ds_1 := l1 ++ repeat zero_slice (1 - q); ds_2 := l2 ++ repeat zero_slice (1 - q) |}
  = Ret tt {| ds_1 := l1 ++ [s1]; ds_2 := l2 ++ [s2] |}.
Proof.
  intros H1 H2.
  cbv beta iota delta [save_block bind io io_always].
  cbn [ds_1 ds_2].
  rewrite !resize_pad by assumption.
  rewrite <- H1 at 1. rewrite set_slice_last. cbn [option_map ds_1 ds_2].
  rewrite <- H2. rewrite set_slice_last. reflexivity.
Qed.

(** The state of the failure-free loop after its first [n] iterations. *)
Definition after (psi0 : St) (n : nat) : rtstate St Slice :=
  {| psi := Nat.iter n rt_step psi0;
     save_index := n / Nframe;
     file := {| ds_1 := snaps spatial_1 psi0 (n / Nframe) ++ repeat zero_slice (1 - n / Nframe);
                ds_2 := snaps spatial_2 psi0 (n / Nframe) ++ repeat zero_slice (1 - n / Nframe) |};
     saves := map (fun j => ((j + 1) * Nframe, j)) (seq 0 (n / Nframe)) |}.

Lemma rt_loop_after (psi0 : St) (n : nat) :
  0 < Nframe -> loop io_always n (init St Slice zero_slice psi0) = Running (after psi0 n).
Proof.
  intros HF. induction n as [|n IH].
  - unfold after. rewrite Nat.Div0.div_0_l by lia. reflexivity.
  - simpl rt_loop. rewrite IH. unfold body, np_mod.
    replace (Nframe =? 0) with false by (symmetry; apply Nat.eqb_neq; lia).
    simpl psi; simpl save_index; simpl file; simpl saves.
    replace (S n) with (n + 1) by lia.
    destruct (succ_div_mod Nframe n HF) as [[Hm [Hd Hmul]] | [Hm Hd]].
    + rewrite Hm. cbv beta iota delta [Nat.eqb save_step].
      cbn [psi save_index file saves].
      rewrite save_block_ok by apply snaps_length.
      unfold after. rewrite Hd, !snaps_S.
      replace (n / Nframe + 1) with (S (n / Nframe)) by lia.
      rewrite <- Hmul. replace (n + 1) with (S n) by lia.
      rewrite seq_S, map_app. cbn [map].
      replace (1 - S (n / Nframe)) with 0 by lia. rewrite !app_nil_r.
      replace ((0 + n / Nframe + 1) * Nframe) with (S n) by lia.
      rewrite Nat.add_0_l. reflexivity.
    + apply Nat.eqb_neq in Hm. rewrite Hm.
      unfold after. rewrite Hd. replace (n + 1) with (S n) by lia. reflexivity.
Qed.

Lemma nth_error_snaps sp psi0 m j :
  j < m -> nth_error (snaps sp psi0 m) j = Some (sp (Nat.iter ((j + 1) * Nframe) rt_step psi0)).
Proof.
  intros Hj. unfold RealTime.snaps. rewrite nth_error_map, nth_error_seq.
  replace (j <? m) with true by (symmetry; apply Nat.ltb_lt; lia). reflexivity.
Qed.

Lemma nth_error_after_1 psi0 n j :
  j < n / Nframe ->
  nth_error (ds_1 (file (after psi0 n))) j
  = Some (spatial_1 (Nat.iter ((j + 1) * Nframe) rt_step psi0)).
Proof.
  intros Hj. cbn. rewrite nth_error_app1 by (rewrite snaps_length; lia).
  now apply nth_error_snaps.
Qed.

Lemma nth_error_after_2 psi0 n j :
  j < n / Nframe ->
  nth_error (ds_2 (file (after psi0 n))) j
  = Some (spatial_2 (Nat.iter ((j + 1) * Nframe) rt_step psi0)).
Proof.
  intros Hj. cbn. rewrite nth_error_app1 by (rewrite snaps_length; lia).
  now apply nth_error_snaps.
Qed.

Lemma saves_iff (Nt i : nat) :
  0 < Nframe -> i < Nt ->
  (exists j, In (i + 1, j) (map (fun j => ((j + 1) * Nframe, j)) (seq 0 (Nt / Nframe))))
  <-> np_mod (i + 1) Nframe = 0.
Proof.
  intros HF Hi. unfold np_mod.
  replace (Nframe =? 0) with false by (symmetry; apply Nat.eqb_neq; lia).
  split.
  - intros [j Hin]. apply in_map_iff in Hin as [x [Hx _]].
    injection Hx as Hx _. rewrite <- Hx. apply Nat.Div0.mod_mul.
  - intros Hm.
    pose proof (Nat.div_mod_eq (i + 1) Nframe) as E. rewrite Hm, Nat.add_0_r in E.
    assert (Hq : (i + 1) / Nframe <= Nt / Nframe) by (apply Nat.Div0.div_le_mono; lia).
    assert (Hq1 : 1 <= (i + 1) / Nframe) by (destruct ((i + 1) / Nframe); lia).
    exists ((i + 1) / Nframe - 1). apply in_map_iff.
    exists ((i + 1) / Nframe - 1). split.
    + f_equal. replace ((i + 1) / Nframe - 1 + 1) with ((i + 1) / Nframe) by lia. lia.
    + apply in_seq. lia.
Qed.

(** ** C3 *)
(** C3: with a frame interval [Nframe > 0] and a storage that never fails,
    the loop over [Nt] steps appends a snapshot exactly after the steps [i]
    with [(i + 1) mod Nframe = 0], that is after steps [Nframe], [2 Nframe],
    ...; there are [Nt / Nframe] of them, the [j]-th is written at index [j]
    (so the index grows by one per snapshot), holds both components after
    step [(j + 1) Nframe], and [save_index] ends at [Nt / Nframe]. *)
Theorem snapshot_cadence (Nt : nat) (psi0 : St) (HF : 0 < Nframe) :
  exists s,
    real_time St Slice zero_slice rt_step spatial_1 spatial_2 Nframe io_always Nt psi0
    = Running s /\
    saves s = map (fun j => ((j + 1) * Nframe, j)) (seq 0 (Nt / Nframe)) /\
    (forall i, i < Nt -> (exists j, In (i + 1, j) (saves s)) <-> np_mod (i + 1) Nframe = 0) /\
    length (saves s) = Nt / Nframe /\
    save_index s = Nt / Nframe /\
    (forall j, j < Nt / Nframe ->
       nth_error (ds_1 (file s)) j = Some (spatial_1 (Nat.iter ((j + 1) * Nframe) rt_step psi0)) /\
       nth_error (ds_2 (file s)) j = Some (spatial_2 (Nat.iter ((j + 1) * Nframe) rt_step psi0))).
Proof.
  exists (after psi0 Nt). split; [now apply rt_loop_after|].
  split; [reflexivity|]. split; [intros i Hi; now apply saves_iff|].
  split; [cbn; now rewrite length_map, length_seq|].
  split; [reflexivity|].
  intros j Hj. split; [now apply nth_error_after_1 | now apply nth_error_after_2].
Qed.

(** ** C10 *)
(** C10: the datasets start with one placeholder slice; after a failure-free
    run their third dimension is [max 1 (Nt / Nframe)]; once a snapshot has
    been taken the placeholder at index 0 holds the first snapshot, and when
    [Nt < Nframe] each dataset is exactly the one never-written slice. *)
Theorem snapshot_dataset_shape (Nt : nat) (psi0 : St) (HF : 0 < Nframe) :
  exists s,
    real_time St Slice zero_slice rt_step spatial_1 spatial_2 Nframe io_always Nt psi0
    = Running s /\
    length (ds_1 (file s)) = Nat.max 1 (Nt / Nframe) /\
    length (ds_2 (file s)) = Nat.max 1 (Nt / Nframe) /\
    (Nframe <= Nt ->
       nth_error (ds_1 (file s)) 0 = Some (spatial_1 (Nat.iter Nframe rt_step psi0)) /\
       nth_error (ds_2 (file s)) 0 = Some (spatial_2 (Nat.iter Nframe rt_step psi0))) /\
    (Nt < Nframe -> ds_1 (file s) = [zero_slice] /\ ds_2 (file s) = [zero_slice]).
Proof.
  exists (after psi0 Nt). split; [now apply rt_loop_after|].
  cbn [after file ds_1 ds_2]. rewrite !length_app, !repeat_length, !snaps_length.
  split; [lia|]. split; [lia|]. split.
  - intros Hle.
    assert (Hq : 1 <= Nt / Nframe).
    { rewrite <- (Nat.div_same Nframe) by lia. now apply Nat.Div0.div_le_mono. }
    rewrite !nth_error_app1 by (rewrite snaps_length; lia).
    rewrite !nth_error_snaps by lia.
    replace ((0 + 1) * Nframe) with Nframe by lia. split; reflexivity.
  - intros Hlt. rewrite Nat.div_small by lia. split; reflexivity.
Qed.

Lemma resize_keeps (n j : nat) (l : list Slice) (v : Slice) :
  j < n -> nth_error l j = Some v -> nth_error (resize_ds Slice zero_slice n l) j = Some v.
Proof.
  intros Hj Hv. unfold resize_ds.
  assert (Hl : j < length l) by (apply nth_error_Some; congruence).
  rewrite nth_error_app1 by (rewrite length_firstn; lia).
  rewrite nth_error_firstn. replace (j <? n) with true by (symmetry; apply Nat.ltb_lt; lia).
  exact Hv.
Qed.

Lemma length_resize (n : nat) (l : list Slice) :
  length (resize_ds Slice zero_slice n l) = n.
Proof. unfold resize_ds. rewrite length_app, length_firstn, repeat_length. lia. Qed.

Lemma set_slice_some (l : list Slice) (i : nat) (v : Slice) :
  i < length l ->
  exists l', set_slice Slice l i v = Some l' /\ nth_error l' i = Some v /\
             (forall j, j <> i -> nth_error l' j = nth_error l j).
Proof.
  revert i. induction l as [|d l IH]; intros i Hi; [cbn in Hi; lia|].
  destruct i as [|i].
  - exists (v :: l). split; [reflexivity|]. split; [reflexivity|].
    intros [|j] Hj; [lia | reflexivity].
  - cbn in Hi. destruct (IH i ltac:(lia)) as [l' [H1 [H2 H3]]].
    exists (d :: l'). cbn. rewrite H1. split; [reflexivity|]. split; [exact H2|].
    intros [|j] Hj; [reflexivity|]. cbn. apply H3. lia.
Qed.

Ltac io_case io_ok i op E :=
  destruct (io_ok i op) eqn:E;
  [ | split; [exists op; exact E | intros; tauto] ].

(** The [with] block of lines 151-157 either completes every storage
    operation, writing both slices at index [si], or raises after one of
    them failed; in both cases the slices below [si] are kept. *)
Lemma save_block_spec (io_ok : nat -> io_op -> bool) (i si : nat) (s1 s2 : Slice)
      (f : h5file Slice) :
  match save_block Slice zero_slice io_ok i si s1 s2 f with
  | Ret _ f' =>
      (forall op, io_ok i op = true) /\
      nth_error (ds_1 f') si = Some s1 /\ nth_error (ds_2 f') si = Some s2 /\
      (forall j v, j < si ->
         (nth_error (ds_1 f) j = Some v -> nth_error (ds_1 f') j = Some v) /\
         (nth_error (ds_2 f) j = Some v -> nth_error (ds_2 f') j = Some v))
  | Exc f' =>
      (exists op, io_ok i op = false) /\
      (forall j v, j < si ->
         (nth_error (ds_1 f) j = Some v -> nth_error (ds_1 f') j = Some v) /\
         (nth_error (ds_2 f) j = Some v -> nth_error (ds_2 f') j = Some v))
  end.
Proof.
  cbv beta iota delta [save_block bind io].
  io_case io_ok i OpenRW Hio1.
  destruct (io_ok i Resize1) eqn:Hio2.
  2: { split; [exists Resize1; exact Hio2|]. intros j v Hj. tauto. }
  destruct (io_ok i Resize2) eqn:Hio3.
  2: { split; [exists Resize2; exact Hio3|]. intros j v Hj. cbn.
       split; [|tauto]. intros H. apply resize_keeps; [lia | exact H]. }
  cbn [ds_1 ds_2].
      destruct (set_slice_some (resize_ds Slice zero_slice (si + 1) (ds_1 f)) si s1)
        as [l1 [H11 [H12 H13]]]; [rewrite length_resize; lia|].
      destruct (set_slice_some (resize_ds Slice zero_slice (si + 1) (ds_2 f)) si s2)
        as [l2 [H21 [H22 H23]]]; [rewrite length_resize; lia|].
      assert (Keep : forall j v, j < si ->
                (nth_error (ds_1 f) j = Some v -> nth_error l1 j = Some v) /\
                (nth_error (ds_2 f) j = Some v -> nth_error l2 j = Some v)).
      { intros j v Hj. split; intros H.
        - rewrite H13 by lia. apply resize_keeps; [lia | exact H].
        - rewrite H23 by lia. apply resize_keeps; [lia | exact H]. }
      rewrite H11. cbn [option_map].
      destruct (io_ok i Write1) eqn:Hio4.
      2: { split; [exists Write1; exact Hio4|]. intros j v Hj. cbn.
           split; intros H; apply resize_keeps; [lia | exact H | lia | exact H]. }
      cbn [ds_1 ds_2]. rewrite H21. cbn [option_map].
      destruct (io_ok i Write2) eqn:Hio5.
      2: { split; [exists Write2; exact Hio5|]. intros j v Hj. cbn.
           split; [apply (proj1 (Keep j v Hj)) | intros H; apply resize_keeps; [lia | exact H]]. }
      destruct (io_ok i Close) eqn:Hio6.
      2: { split; [exists Close; exact Hio6|]. exact Keep. }
      split; [intros []; assumption|]. cbn [ds_1 ds_2].
      split; [exact H12|]. split; [exact H22|]. exact Keep.
Qed.

Lemma crashed_stays (io_ok : nat -> io_op -> bool) (k m : nat) (s0 : rtstate St Slice) :
  match loop io_ok k s0 with
  | Crashed c => loop io_ok (k + m) s0 = Crashed c
  | Running _ => True
  end.
Proof.
  destruct (loop io_ok k s0) as [s'|c] eqn:Hk; [exact I|].
  induction m as [|m IH].
  - now rewrite Nat.add_0_r.
  - rewrite Nat.add_succ_r. cbn [rt_loop]. now rewrite IH.
Qed.

(** ** C8 *)
(** C8: the save branch advances [save_index] by one only when every storage
    operation of the [with] block, the closing of the file included, has
    succeeded and both slices are written at the old index; when one of them
    fails the branch raises, [save_index] is unchanged and every slice stored
    below it is still there; and once raised, the run stays crashed: no
    further iteration runs. *)
Theorem append_commit (io_ok : nat -> io_op -> bool) (i : nat) (s : rtstate St Slice) :
  match save_step St Slice zero_slice spatial_1 spatial_2 io_ok i s with
  | Running s' =>
      save_index s' = S (save_index s) /\
      (forall op, io_ok i op = true) /\
      nth_error (ds_1 (file s')) (save_index s) = Some (spatial_1 (psi s)) /\
      nth_error (ds_2 (file s')) (save_index s) = Some (spatial_2 (psi s)) /\
      (forall j v, j < save_index s ->
         (nth_error (ds_1 (file s)) j = Some v -> nth_error (ds_1 (file s')) j = Some v) /\
         (nth_error (ds_2 (file s)) j = Some v -> nth_error (ds_2 (file s')) j = Some v))
  | Crashed s' =>
      save_index s' = save_index s /\
      (exists op, io_ok i op = false) /\
      (forall j v, j < save_index s ->
         (nth_error (ds_1 (file s)) j = Some v -> nth_error (ds_1 (file s')) j = Some v) /\
         (nth_error (ds_2 (file s)) j = Some v -> nth_error (ds_2 (file s')) j = Some v))
  end /\
  (forall k m s0,
     match loop io_ok k s0 with
     | Crashed c => loop io_ok (k + m) s0 = Crashed c
     | Running _ => True
     end).
Proof.
  split; [|intros; apply crashed_stays].
  unfold save_step.
  pose proof (save_block_spec io_ok i (save_index s) (spatial_1 (psi s)) (spatial_2 (psi s))
                (file s)) as H.
  destruct (save_block Slice zero_slice io_ok i (save_index s) (spatial_1 (psi s))
              (spatial_2 (psi s)) (file s)) as [[] f' | f']; cbn [psi save_index file];
    tauto.
Qed.

End Facts.

Lemma snapshot_cadence_witness :
  0 < 3 /\
  exists s, real_time nat nat 0 S (fun x : nat => x) (fun x : nat => x) 3 io_always 7 0 = Running s /\
            saves s = [(3, 0); (6, 1)] /\ save_index s = 2.
Proof.
  split; [lia|].
  destruct (snapshot_cadence nat nat 0 S (fun x : nat => x) (fun x : nat => x) 3 7 0 ltac:(lia))
    as [s [H1 [H2 [_ [_ [H3 _]]]]]].
  exists s. split; [exact H1|]. split; [rewrite H2; reflexivity | rewrite H3; reflexivity].
Defined.

Lemma snapshot_dataset_shape_witness :
  0 < 3 /\
  exists s, real_time nat nat 0 S (fun x : nat => x) (fun x : nat => x) 3 io_always 2 0 = Running s /\
            ds_1 (file s) = [0] /\ ds_2 (file s) = [0].
Proof.
  split; [lia|].
  destruct (snapshot_dataset_shape nat nat 0 S (fun x : nat => x) (fun x : nat => x) 3 2 0 ltac:(lia))
    as [s [H1 [_ [_ [_ H2]]]]].
  exists s. split; [exact H1|]. apply H2. lia.
Defined.

End RealTimeFacts.

(** ** The imaginary-time loop *)
Module RelaxFacts.
Import Num Field.

Lemma relax_body_strang {K : Type} (Sc : scalar K) (c : gconst) (st : gstate) :
  relax_body Sc c st = strang_iteration Sc c st.
Proof. reflexivity. Qed.

Lemma relax_loop_iter {K : Type} (Sc : scalar K) (c : gconst) (k : nat) :
  forall st d, relax_loop Sc k c st d = (Nat.iter k (strang_iteration Sc c) st, (d + k)%nat).
Proof.
  induction k as [|k IH]; intros st d; cbn [relax_loop].
  - now rewrite Nat.add_0_r.
  - rewrite IH, relax_body_strang, Nat.iter_succ_r. f_equal. lia.
Qed.

(** ** C2 *)
(** C2: the relaxation loop runs exactly [2000] iterations, each of which is
    the spec's kinetic / to-spatial / potential / to-conjugate / kinetic /
    renormalise / phase-lock sequence, with the imaginary step [-1j * dt]
    (that is [(0, -dt)]) given to both kinetic calls and the potential
    call. *)
Theorem relax_strang {K : Type} (Sc : scalar K) (c : gconst) (st : gstate) :
  relax Sc c st = (Nat.iter 2000 (strang_iteration Sc c) st, 2000%nat) /\
  imag_dt SR = (0, - dt)%R.
Proof.
  split.
  - unfold relax. rewrite relax_loop_iter. reflexivity.
  - unfold imag_dt, Cneg_i, Cmul. cbn. f_equal; lra.
Qed.

End RelaxFacts.

(** ** Exact arithmetic on fields *)
Module FieldFacts.
Import Num Field.
Local Open Scope R_scope.

Lemma ksum_R_S (n : nat) (f : nat -> R) : ksum SR (S n) f = ksum SR n f + f n.
Proof. reflexivity. Qed.

Lemma ksum_R_ext (n : nat) (f g : nat -> R) :
  (forall i, (i < n)%nat -> f i = g i) -> ksum SR n f = ksum SR n g.
Proof.
  induction n as [|n IH]; intros H; [reflexivity|].
  rewrite !ksum_R_S, IH by (intros; apply H; lia). now rewrite H by lia.
Qed.

Lemma ksum_R_scale (n : nat) (a : R) (f : nat -> R) :
  ksum SR n (fun i => a * f i) = a * ksum SR n f.
Proof.
  induction n as [|n IH]; [cbn; ring|]. rewrite !ksum_R_S, IH. ring.
Qed.

Lemma ksum_R_nonneg (n : nat) (f : nat -> R) :
  (forall i, (i < n)%nat -> 0 <= f i) -> 0 <= ksum SR n f.
Proof.
  induction n as [|n IH]; intros H; [cbn; lra|].
  rewrite ksum_R_S. pose proof (H n ltac:(lia)). pose proof (IH ltac:(intros; apply H; lia)).
  lra.
Qed.

Lemma ksum_R_pos (n : nat) (f : nat -> R) (j : nat) :
  (forall i, (i < n)%nat -> 0 <= f i) -> (j < n)%nat -> 0 < f j -> 0 < ksum SR n f.
Proof.
  induction n as [|n IH]; intros H Hj Hf; [lia|].
  rewrite ksum_R_S.
  pose proof (H n ltac:(lia)).
  pose proof (ksum_R_nonneg n f ltac:(intros; apply H; lia)).
  destruct (Nat.eq_dec j n) as [->|Hne]; [lra|].
  pose proof (IH ltac:(intros; apply H; lia) ltac:(lia) Hf). lra.
Qed.

Lemma Cabs_sq_R (z : R * R) : Cabs SR z * Cabs SR z = fst z * fst z + snd z * snd z.
Proof. unfold Cabs. cbn. apply sqrt_sqrt. nra. Qed.

Lemma atom_number_R (f : field) :
  atom_number SR f
  = ksum SR Ny (fun m => ksum SR Nx (fun n => fst (f m n) * fst (f m n) + snd (f m n) * snd (f m n))).
Proof.
  unfold atom_number. cbn [s_of_R s_mul SR]. unfold dx, dy.
  rewrite Rmult_1_l, Rmult_1_l.
  apply ksum_R_ext. intros m _. apply ksum_R_ext. intros n _. apply Cabs_sq_R.
Qed.

Lemma atom_number_nonneg (f : field) : 0 <= atom_number SR f.
Proof.
  rewrite atom_number_R. apply ksum_R_nonneg. intros m _.
  apply ksum_R_nonneg. intros n _. nra.
Qed.

Lemma atom_number_pos (f : field) (m n : nat) :
  (m < Ny)%nat -> (n < Nx)%nat -> f m n <> (0, 0) -> 0 < atom_number SR f.
Proof.
  intros Hm Hn Hz. rewrite atom_number_R.
  apply (ksum_R_pos _ _ m); [| exact Hm |].
  - intros i _. apply ksum_R_nonneg. intros k _. nra.
  - apply (ksum_R_pos _ _ n); [intros k _; nra | exact Hn |].
    destruct (f m n) as [a b]. cbn.
    destruct (Req_dec a 0) as [Ha|Ha]; [destruct (Req_dec b 0) as [Hb|Hb]|].
    + subst. contradiction.
    + assert (0 < b * b) by (apply Rsqr_pos_lt; exact Hb). nra.
    + assert (0 < a * a) by (apply Rsqr_pos_lt; exact Ha). nra.
Qed.

(** ** C4 *)
(** C4: for a spatial field that is not zero on the grid, rescaling it by
    [sqrt(N0) / sqrt(N)] ([N] its atom number, [N0] the original atom
    number) gives a field whose recomputed atom number [dx dy sum |psi|^2]
    is [N0]. *)
Theorem renormalise_atom_number (psi0 psi : field)
    (Hnz : exists m n, (m < Ny)%nat /\ (n < Nx)%nat /\ psi m n <> (0, 0)) :
  atom_number SR (renormalise SR (atom_number SR psi0) (atom_number SR psi) psi)
  = atom_number SR psi0.
Proof.
  destruct Hnz as [m [n [Hm [Hn Hz]]]].
  pose proof (atom_number_pos psi m n Hm Hn Hz) as HN.
  pose proof (atom_number_nonneg psi0) as H0.
  pose proof (atom_number_R psi) as EN.
  set (N := atom_number SR psi) in *. set (N0 := atom_number SR psi0) in *.
  clearbody N N0.
  rewrite atom_number_R.
  transitivity (ksum SR Ny (fun m => (N0 / N) * ksum SR Nx
     (fun n => fst (psi m n) * fst (psi m n) + snd (psi m n) * snd (psi m n)))).
  - apply ksum_R_ext. intros i _. rewrite <- ksum_R_scale. apply ksum_R_ext. intros j _.
    unfold renormalise, Cdiv_re, Cscale. cbn [fst snd s_mul s_div s_sqrt SR].
    pose proof (sqrt_lt_R0 N HN) as HsN.
    assert (E0 : sqrt N0 * sqrt N0 = N0) by (apply sqrt_sqrt; lra).
    assert (E1 : sqrt N * sqrt N = N) by (apply sqrt_sqrt; lra).
    transitivity ((sqrt N0 * sqrt N0) / (sqrt N * sqrt N)
                  * (fst (psi i j) * fst (psi i j) + snd (psi i j) * snd (psi i j))).
    + field. lra.
    + rewrite E0, E1. reflexivity.
  - rewrite ksum_R_scale, <- EN. field. lra.
Qed.


Lemma sqrt_one_plus (a y : R) :
  a <> 0 -> sqrt (1 + (y / a)²) = sqrt (a * a + y * y) / Rabs a.
Proof.
  intros Ha.
  replace (1 + (y / a)²) with ((a * a + y * y) / (a * a)) by (unfold Rsqr; field; exact Ha).
  rewrite sqrt_div by (nra || (apply Rsqr_pos_lt in Ha; unfold Rsqr in Ha; lra)).
  rewrite <- (sqrt_Rsqr_abs a). reflexivity.
Qed.

Lemma nonzero_norm (x y : R) : (x, y) <> (0, 0) -> 0 < x * x + y * y.
Proof.
  intros Hz.
  destruct (Req_dec x 0) as [Hx|Hx]; [destruct (Req_dec y 0) as [Hy|Hy]|].
  - subst. contradiction.
  - assert (0 < y * y) by (apply Rsqr_pos_lt; exact Hy). nra.
  - assert (0 < x * x) by (apply Rsqr_pos_lt; exact Hx). nra.
Qed.

(** [np.arctan2] returns an angle of the point [(x, y)]. *)
Lemma atan2R_polar (x y : R) :
  (x, y) <> (0, 0) ->
  cos (atan2R y x) = x / sqrt (x * x + y * y) /\ sin (atan2R y x) = y / sqrt (x * x + y * y).
Proof.
  intros Hz. pose proof (nonzero_norm x y Hz) as Hr.
  pose proof (sqrt_lt_R0 _ Hr) as Hs.
  assert (Er : sqrt (x * x + y * y) * sqrt (x * x + y * y) = x * x + y * y)
    by (apply sqrt_sqrt; lra).
  set (r := sqrt (x * x + y * y)) in *.
  unfold atan2R.
  destruct (Rlt_dec 0 x) as [Hx|Hx].
  - rewrite cos_atan, sin_atan, (sqrt_one_plus x y) by lra. fold r.
    rewrite Rabs_right by lra. split; field; lra.
  - destruct (Rlt_dec x 0) as [Hx'|Hx'].
    + assert (Ha : sqrt (1 + (y / x)²) = r / (- x)).
      { rewrite (sqrt_one_plus x y) by lra. fold r. rewrite Rabs_left by lra. reflexivity. }
      destruct (Rle_dec 0 y) as [Hy|Hy].
      * rewrite neg_cos, neg_sin, cos_atan, sin_atan, Ha. split; field; lra.
      * rewrite cos_minus, sin_minus, cos_PI, sin_PI, cos_atan, sin_atan, Ha.
        split; field; lra.
    + assert (Hx0 : x = 0) by lra. subst x.
      destruct (Rlt_dec 0 y) as [Hy|Hy].
      * assert (E : r = y) by nra. rewrite E, cos_PI2, sin_PI2. split; field; lra.
      * destruct (Rlt_dec y 0) as [Hy'|Hy'].
        -- assert (E : r = - y) by nra.
           rewrite E, cos_neg, sin_neg, cos_PI2, sin_PI2. split; field; lra.
        -- assert (y = 0) by lra. subst y. contradiction.
Qed.

Lemma cos_shift_Z (x : R) (q : Z) : cos (x + 2 * IZR q * PI) = cos x.
Proof.
  destruct q as [|p|p].
  - f_equal. ring.
  - rewrite <- (positive_nat_Z p), <- (INR_IZR_INZ (Pos.to_nat p)). apply cos_period.
  - rewrite <- (Pos2Z.opp_pos p), opp_IZR, <- (positive_nat_Z p),
      <- (INR_IZR_INZ (Pos.to_nat p)).
    rewrite <- (cos_period (x + 2 * - INR (Pos.to_nat p) * PI) (Pos.to_nat p)).
    f_equal. ring.
Qed.

(** Two angles with the same cosine and sine are equal modulo [2 pi]. *)
Lemma same_cos_sin (a b : R) :
  cos a = cos b -> sin a = sin b -> exists k : Z, a = b + 2 * IZR k * PI.
Proof.
  intros Hc Hs.
  assert (Hs0 : sin (a - b) = 0) by (rewrite sin_minus, Hc, Hs; ring).
  assert (Hc1 : cos (a - b) = 1).
  { rewrite cos_minus, Hc, Hs. pose proof (sin2_cos2 b). unfold Rsqr in *. lra. }
  destruct (sin_eq_0_0 _ Hs0) as [m Hm].
  destruct (Z.Even_or_Odd m) as [[q Hq] | [q Hq]]; subst m.
  - exists q. rewrite mult_IZR in Hm. lra.
  - exfalso. rewrite plus_IZR, mult_IZR in Hm.
    assert (E : a - b = PI + 2 * IZR q * PI) by (rewrite Hm; ring).
    rewrite E, cos_shift_Z, cos_PI in Hc1. lra.
Qed.

Lemma Cexp_Ci_R (a : R) : Cexp SR (Ci SR a) = (cos a, sin a).
Proof. unfold Cexp, Ci. cbn. rewrite exp_0. f_equal; ring. Qed.

(** Phase locking in exact arithmetic: a non-zero value [psi] becomes
    [|psi| exp(i theta)]; zero stays zero. *)
Lemma fix_phase_nonzero (theta : nat -> nat -> R) (psi : field) (m n : nat) :
  psi m n <> (0, 0) ->
  fix_phase SR theta psi m n
  = (Cabs SR (psi m n) * cos (theta m n), Cabs SR (psi m n) * sin (theta m n)).
Proof.
  intros Hz. unfold fix_phase, Cangle. rewrite !Cexp_Ci_R.
  destruct (psi m n) as [x y]. cbn [fst snd s_atan2 SR].
  destruct (atan2R_polar x y Hz) as [Hc Hs]. rewrite Hc, Hs.
  pose proof (nonzero_norm x y Hz) as Hr.
  pose proof (sqrt_lt_R0 _ Hr) as Hq.
  assert (Er : sqrt (x * x + y * y) * sqrt (x * x + y * y) = x * x + y * y)
    by (apply sqrt_sqrt; lra).
  unfold Cabs, Cdiv, Cmul. cbn.
  set (r := sqrt (x * x + y * y)) in *.
  assert (Hd : x / r * (x / r) + y / r * (y / r) = 1).
  { replace (x / r * (x / r) + y / r * (y / r)) with ((x * x + y * y) / (r * r))
      by (field; lra).
    rewrite Er. field. lra. }
  rewrite Hd. f_equal.
  - transitivity (cos (theta m n) * (x * x + y * y) / r); [field; lra|].
    rewrite <- Er. field. lra.
  - transitivity (sin (theta m n) * (x * x + y * y) / r); [field; lra|].
    rewrite <- Er. field. lra.
Qed.

Lemma fix_phase_zero (theta : nat -> nat -> R) (psi : field) (m n : nat) :
  psi m n = (0, 0) -> fix_phase SR theta psi m n = (0, 0).
Proof.
  intros Hz. unfold fix_phase, Cmul. rewrite Hz. cbn. f_equal; ring.
Qed.

Lemma Cabs_polar (r t : R) : 0 <= r -> Cabs SR (r * cos t, r * sin t) = r.
Proof.
  intros Hr. unfold Cabs. cbn.
  replace (r * cos t * (r * cos t) + r * sin t * (r * sin t))
    with (r * r * (Rsqr (sin t) + Rsqr (cos t))) by (unfold Rsqr; ring).
  rewrite sin2_cos2, Rmult_1_r. apply sqrt_square. exact Hr.
Qed.

Lemma Cabs_nonneg (z : R * R) : 0 <= Cabs SR z.
Proof. unfold Cabs. cbn. apply sqrt_pos. Qed.

Lemma Cabs_pos (z : R * R) : z <> (0, 0) -> 0 < Cabs SR z.
Proof.
  intros Hz. destruct z as [x y]. unfold Cabs. cbn.
  apply sqrt_lt_R0. apply nonzero_norm. exact Hz.
Qed.

Lemma renormalise_atom_number_witness :
  (exists m n, (m < Ny)%nat /\ (n < Nx)%nat /\ (fun _ _ : nat => (2, 0)) m n <> (0, 0)) /\
  atom_number SR (renormalise SR (atom_number SR (fun _ _ => (1, 0)))
                    (atom_number SR (fun _ _ => (2, 0))) (fun _ _ => (2, 0)))
  = atom_number SR (fun _ _ => (1, 0)).
Proof.
  assert (H : exists m n, (m < Ny)%nat /\ (n < Nx)%nat /\ (fun _ _ : nat => (2, 0)) m n <> (0, 0)).
  { exists 0%nat, 0%nat. split; [unfold Ny; lia|]. split; [unfold Nx; lia|].
    intros E. injection E as E. lra. }
  split; [exact H|]. exact (renormalise_atom_number (fun _ _ => (1, 0)) (fun _ _ => (2, 0)) H).
Defined.

Lemma atan2R_0_0 : atan2R 0 0 = 0.
Proof.
  unfold atan2R.
  destruct (Rlt_dec 0 0); [lra|]. destruct (Rlt_dec 0 0); [lra|].
  destruct (Rlt_dec 0 0); [lra|]. destruct (Rlt_dec 0 0); [lra|]. reflexivity.
Qed.

(** ** C5 *)
(** C5, as stated, fails where the field is zero: locking the zero field to
    the phase [1] leaves it zero, whose [np.angle] is [0], not [1] modulo
    [2 pi]. *)
Lemma fix_phase_zero_counterexample :
  ~ (forall (theta : nat -> nat -> R) (psi : field) (m n : nat),
       Cabs SR (fix_phase SR theta psi m n) = Cabs SR (psi m n) /\
       exists k : Z, Cangle SR (fix_phase SR theta psi m n) = theta m n + 2 * IZR k * PI).
Proof.
  intros H.
  destruct (H (fun _ _ => 1) (fun _ _ => (0, 0)) 0%nat 0%nat) as [_ [k Hk]].
  rewrite fix_phase_zero in Hk by reflexivity.
  unfold Cangle in Hk. cbn [fst snd s_atan2 SR] in Hk. rewrite atan2R_0_0 in Hk.
  pose proof PI2_3_2 as Hpi.
  destruct (Z.lt_trichotomy k 0) as [Hk0 | [Hk0 | Hk0]].
  - assert (Hk1 : IZR k <= -1) by (apply IZR_le; lia). nra.
  - subst k. lra.
  - assert (Hk1 : 1 <= IZR k) by (apply IZR_le; lia). nra.
Qed.

(** C5 (amended): phase locking keeps [|psi|] at every point; where [psi] is
    non-zero the locked value has angle [theta_fixed] modulo [2 pi]; where it
    is zero it stays zero (with angle [0]). *)
Theorem fix_phase_spec (theta : nat -> nat -> R) (psi : field) (m n : nat) :
  Cabs SR (fix_phase SR theta psi m n) = Cabs SR (psi m n) /\
  (psi m n <> (0, 0) ->
     exists k : Z, Cangle SR (fix_phase SR theta psi m n) = theta m n + 2 * IZR k * PI) /\
  (psi m n = (0, 0) -> fix_phase SR theta psi m n = (0, 0)).
Proof.
  assert (D : psi m n = (0, 0) \/ psi m n <> (0, 0)).
  { destruct (psi m n) as [x y].
    destruct (Req_dec x 0) as [Hx|Hx]; [destruct (Req_dec y 0) as [Hy|Hy]|].
    - left. subst. reflexivity.
    - right. intros E. injection E as E1 E2. lra.
    - right. intros E. injection E as E1 E2. lra. }
  destruct D as [Hz|Hz].
  - rewrite (fix_phase_zero theta psi m n Hz), Hz.
    split; [reflexivity|]. split; [intros C; contradiction | intros _; reflexivity].
  - rewrite (fix_phase_nonzero theta psi m n Hz).
    pose proof (Cabs_pos _ Hz) as Hr.
    set (r := Cabs SR (psi m n)) in *. set (t := theta m n).
    split; [apply Cabs_polar; lra|].
    split; [intros _ | intros C; contradiction].
    assert (Hnz : (r * cos t, r * sin t) <> (0, 0)).
    { intros E. injection E as E1 E2. pose proof (sin2_cos2 t) as H1.
      unfold Rsqr in H1.
      assert (cos t = 0) by (apply (Rmult_eq_reg_l r); lra).
      assert (sin t = 0) by (apply (Rmult_eq_reg_l r); lra). nra. }
    unfold Cangle. cbn [fst snd s_atan2 SR].
    destruct (atan2R_polar _ _ Hnz) as [Hc Hs].
    assert (Er : sqrt (r * cos t * (r * cos t) + r * sin t * (r * sin t)) = r).
    { pose proof (Cabs_polar r t ltac:(lra)) as H. unfold Cabs in H. cbn in H. exact H. }
    rewrite Er in Hc, Hs.
    apply same_cos_sin; [rewrite Hc | rewrite Hs]; field; lra.
Qed.

(** ** C9 *)
(** C9: component 2 starts real and positive, [sqrt(n0 / 2)] with [n0 = 1],
    and without the vortex phase, which goes into component 1 only; its
    locking phase [theta_fix_2 = np.angle(psi_2)] is zero everywhere; hence
    every relaxation iteration, which ends by locking component 2 to that
    phase, leaves component 2 real and non-negative at every point. *)
Theorem component_2_real (theta : nat -> nat -> R) :
  (forall m n, psi_2_init SR m n = (sqrt (1 / 2), 0)) /\
  (forall m n, psi_1_init SR theta m n
               = (sqrt (1 / 2) * cos (theta m n), sqrt (1 / 2) * sin (theta m n))) /\
  (forall m n, theta_fix_2 (gconst_init SR theta) m n = 0) /\
  (forall (st : gstate) m n,
     snd (psi_2 (relax_body SR (gconst_init SR theta) st) m n) = 0 /\
     0 <= fst (psi_2 (relax_body SR (gconst_init SR theta) st) m n)).
Proof.
  assert (Hth : forall m n, theta_fix_2 (gconst_init SR theta) m n = 0).
  { intros m n. cbn [theta_fix_2 gconst_init]. unfold theta_fix, psi_2_init, Cangle, n0.
    cbn [fst snd s_atan2 s_div s_of_R s_sqrt SR].
    unfold atan2R.
    assert (Hs : 0 < sqrt (1 / 2)) by (apply sqrt_lt_R0; lra).
    destruct (Rlt_dec 0 (sqrt (1 / 2))) as [_|C]; [|lra].
    unfold Rdiv at 1. rewrite Rmult_0_l. apply atan_0. }
  split; [|split; [|split]].
  - intros m n. reflexivity.
  - intros m n. unfold psi_1_init. rewrite Cexp_Ci_R. unfold Cmul, n0. cbn.
    f_equal; ring.
  - exact Hth.
  - intros st m n.
    change (psi_2 (relax_body SR (gconst_init SR theta) st))
      with (fix_phase SR (theta_fix_2 (gconst_init SR theta))
              (ifft2 SR (psi_2_k (stage_renormalise SR (gconst_init SR theta)
                (stage_kinetic_half SR (imag_dt SR) (stage_to_conjugate SR
                  (stage_potential SR (imag_dt SR) (stage_to_spatial SR
                    (stage_kinetic_half SR (imag_dt SR) st))))))))).
    set (f := ifft2 SR _).
    assert (D : f m n = (0, 0) \/ f m n <> (0, 0)).
    { destruct (f m n) as [x y].
      destruct (Req_dec x 0) as [Hx|Hx]; [destruct (Req_dec y 0) as [Hy|Hy]|].
      - left. subst. reflexivity.
      - right. intros E. injection E as E1 E2. lra.
      - right. intros E. injection E as E1 E2. lra. }
    destruct D as [Hz|Hz].
    + rewrite fix_phase_zero by exact Hz. cbn. lra.
    + rewrite fix_phase_nonzero by exact Hz. rewrite Hth, cos_0, sin_0. cbn [fst snd].
      pose proof (Cabs_nonneg (f m n)). split; lra.
Qed.

Lemma Cexp_neg_i_R (step : R * R) (e : R) :
  Cexp SR (Cneg_i SR (Cmul SR step (e, s_of_R SR 0)))
  = (exp (snd step * e) * cos (- (fst step * e)), exp (snd step * e) * sin (- (fst step * e))).
Proof.
  destruct step as [a b]. unfold Cexp, Cneg_i, Cmul.
  cbn [fst snd s_of_R s_add s_sub s_mul s_exp s_cos s_sin SR].
  f_equal; f_equal; f_equal; ring.
Qed.

(** ** C1 *)
(** C1: the potential step multiplies [psi_1] pointwise by
    [exp(-i step (g1 |psi_1|^2 + g12 |psi_2|^2 - mu_1))] and [psi_2] by
    [exp(-i step (g2 |psi_2|^2 + g12 |psi_1|^2 - mu_2))], for a complex step
    [step = (a, b)] the factor [e^(b E) (cos(-a E), sin(-a E))]; both factors
    use the input densities, so updating the components one after the other
    from those densities, in either order, gives the same pair, and
    exchanging the two components exchanges the results. *)
Theorem potential_step_simultaneous (psi_1 psi_2 : field) (step : R * R)
    (g1 g2 g12 mu_1 mu_2 : R) :
  let dens := fun z : R * R => fst z * fst z + snd z * snd z in
  let E1 := fun m n => g1 * dens (psi_1 m n) + g12 * dens (psi_2 m n) - mu_1 in
  let E2 := fun m n => g2 * dens (psi_2 m n) + g12 * dens (psi_1 m n) - mu_2 in
  (forall m n,
     fst (potential_evolution SR psi_1 psi_2 step g1 g2 g12 mu_1 mu_2) m n
     = Cmul SR (psi_1 m n) (exp (snd step * E1 m n) * cos (- (fst step * E1 m n)),
                            exp (snd step * E1 m n) * sin (- (fst step * E1 m n))) /\
     snd (potential_evolution SR psi_1 psi_2 step g1 g2 g12 mu_1 mu_2) m n
     = Cmul SR (psi_2 m n) (exp (snd step * E2 m n) * cos (- (fst step * E2 m n)),
                            exp (snd step * E2 m n) * sin (- (fst step * E2 m n)))) /\
  potential_sequential_12 SR psi_1 psi_2 step g1 g2 g12 mu_1 mu_2
  = potential_evolution SR psi_1 psi_2 step g1 g2 g12 mu_1 mu_2 /\
  potential_sequential_21 SR psi_1 psi_2 step g1 g2 g12 mu_1 mu_2
  = potential_evolution SR psi_1 psi_2 step g1 g2 g12 mu_1 mu_2 /\
  potential_evolution SR psi_2 psi_1 step g2 g1 g12 mu_2 mu_1
  = (snd (potential_evolution SR psi_1 psi_2 step g1 g2 g12 mu_1 mu_2),
     fst (potential_evolution SR psi_1 psi_2 step g1 g2 g12 mu_1 mu_2)).
Proof.
  intros dens E1 E2. split; [|split; [reflexivity | split; reflexivity]].
  intros m n. unfold potential_evolution. cbn [fst snd].
  rewrite !Cabs_sq_R, !Cexp_neg_i_R. split; reflexivity.
Qed.

End FieldFacts.

(** ** The kinetic step and the discrete Fourier transform *)
Module ParsevalFacts.
Import Num Field FieldFacts.
Local Open Scope R_scope.

Lemma ksum_R_0 (n : nat) : ksum SR n (fun _ => 0) = 0.
Proof. induction n as [|n IH]; [reflexivity|]. rewrite ksum_R_S, IH. ring. Qed.

Lemma ksum_R_const (n : nat) : ksum SR n (fun _ => 1) = INR n.
Proof. induction n as [|n IH]; [reflexivity|]. rewrite ksum_R_S, IH, S_INR. ring. Qed.

Lemma ksum_R_plus (n : nat) (f g : nat -> R) :
  ksum SR n (fun i => f i + g i) = ksum SR n f + ksum SR n g.
Proof. induction n as [|n IH]; [cbn; ring|]. rewrite !ksum_R_S, IH. ring. Qed.

Lemma ksum_R_scale_r (n : nat) (f : nat -> R) (a : R) :
  ksum SR n (fun i => f i * a) = ksum SR n f * a.
Proof. induction n as [|n IH]; [cbn; ring|]. rewrite !ksum_R_S, IH. ring. Qed.

Lemma ksum_R_div (n : nat) (f : nat -> R) (a : R) :
  ksum SR n (fun i => f i / a) = ksum SR n f / a.
Proof. unfold Rdiv. apply ksum_R_scale_r. Qed.

Lemma ksum_R_swap (n p : nat) (F : nat -> nat -> R) :
  ksum SR n (fun i => ksum SR p (fun j => F i j)) = ksum SR p (fun j => ksum SR n (fun i => F i j)).
Proof.
  induction n as [|n IH]; [cbn; symmetry; apply ksum_R_0|].
  rewrite ksum_R_S, IH, <- ksum_R_plus. reflexivity.
Qed.

Lemma ksum_R_mul (n p : nat) (f g : nat -> R) :
  ksum SR n f * ksum SR p g = ksum SR n (fun i => ksum SR p (fun j => f i * g j)).
Proof.
  rewrite <- ksum_R_scale_r. apply ksum_R_ext. intros i _.
  rewrite <- ksum_R_scale. reflexivity.
Qed.

Lemma ksum_R_delta (n k : nat) (f : nat -> R) :
  (k < n)%nat -> ksum SR n (fun j => if Nat.eqb j k then f j else 0) = f k.
Proof.
  induction n as [|n IH]; intros Hk; [lia|]. rewrite ksum_R_S.
  destruct (Nat.eq_dec k n) as [->|Hne].
  - rewrite Nat.eqb_refl.
    rewrite (ksum_R_ext _ _ (fun _ => 0)), ksum_R_0; [ring|].
    intros i Hi. replace (Nat.eqb i n) with false by (symmetry; apply Nat.eqb_neq; lia).
    reflexivity.
  - replace (Nat.eqb n k) with false by (symmetry; apply Nat.eqb_neq; lia).
    rewrite IH by lia. ring.
Qed.

Lemma csum_R_fst (n : nat) (f : nat -> R * R) :
  fst (csum SR n f) = ksum SR n (fun i => fst (f i)).
Proof. induction n as [|n IH]; [reflexivity|]. cbn [csum]. unfold Cadd. cbn [fst]. now rewrite IH. Qed.

Lemma csum_R_snd (n : nat) (f : nat -> R * R) :
  snd (csum SR n f) = ksum SR n (fun i => snd (f i)).
Proof. induction n as [|n IH]; [reflexivity|]. cbn [csum]. unfold Cadd. cbn [snd]. now rewrite IH. Qed.

Lemma csum_R_Cmul_r (n : nat) (f : nat -> R * R) (w : R * R) :
  csum SR n (fun i => Cmul SR (f i) w) = Cmul SR (csum SR n f) w.
Proof.
  induction n as [|n IH].
  - unfold Cmul. cbn. f_equal; ring.
  - cbn [csum]. rewrite IH. destruct (csum SR n f) as [a b], (f n) as [c d], w as [x y].
    unfold Cadd, Cmul. cbn. f_equal; ring.
Qed.

Lemma sin_shift_Z (x : R) (q : Z) : sin (x + 2 * IZR q * PI) = sin x.
Proof.
  destruct q as [|p|p].
  - f_equal. ring.
  - rewrite <- (positive_nat_Z p), <- (INR_IZR_INZ (Pos.to_nat p)). apply sin_period.
  - rewrite <- (Pos2Z.opp_pos p), opp_IZR, <- (positive_nat_Z p),
      <- (INR_IZR_INZ (Pos.to_nat p)).
    rewrite <- (sin_period (x + 2 * - INR (Pos.to_nat p) * PI) (Pos.to_nat p)).
    f_equal. ring.
Qed.

Lemma tele_cos (t : R) (n : nat) :
  2 * sin (t / 2) * ksum SR n (fun m => cos (INR m * t)) = sin ((INR n - 1 / 2) * t) + sin (t / 2).
Proof.
  induction n as [|n IH].
  - cbn [ksum s_of_R SR INR]. replace ((0 - 1 / 2) * t) with (- (t / 2)) by field.
    rewrite sin_neg. ring.
  - rewrite ksum_R_S, Rmult_plus_distr_l, IH, S_INR.
    replace ((INR n + 1 - 1 / 2) * t) with (INR n * t + t / 2) by field.
    replace ((INR n - 1 / 2) * t) with (INR n * t - t / 2) by field.
    rewrite sin_plus, sin_minus. ring.
Qed.

Lemma tele_sin (t : R) (n : nat) :
  2 * sin (t / 2) * ksum SR n (fun m => sin (INR m * t)) = cos (t / 2) - cos ((INR n - 1 / 2) * t).
Proof.
  induction n as [|n IH].
  - cbn [ksum s_of_R SR INR]. replace ((0 - 1 / 2) * t) with (- (t / 2)) by field.
    rewrite cos_neg. ring.
  - rewrite ksum_R_S, Rmult_plus_distr_l, IH, S_INR.
    replace ((INR n + 1 - 1 / 2) * t) with (INR n * t + t / 2) by field.
    replace ((INR n - 1 / 2) * t) with (INR n * t - t / 2) by field.
    rewrite cos_plus, cos_minus. ring.
Qed.

(** The roots of unity [exp(2 pi i d m / N)], [m < N], sum to zero for
    [0 < |d| < N]. *)
Lemma orth_nonzero (N : nat) (d : Z) :
  (0 < N)%nat -> d <> 0%Z -> (Z.abs d < Z.of_nat N)%Z ->
  ksum SR N (fun m => cos (INR m * (2 * PI * IZR d / INR N))) = 0 /\
  ksum SR N (fun m => sin (INR m * (2 * PI * IZR d / INR N))) = 0.
Proof.
  intros HN Hd Hlt.
  assert (HNr : INR N <> 0) by (apply not_0_INR; lia).
  set (t := 2 * PI * IZR d / INR N).
  assert (Hs : sin (t / 2) <> 0).
  { intros H0. apply sin_eq_0_0 in H0. destruct H0 as [k Hk].
    assert (E : IZR d = IZR k * INR N).
    { unfold t in Hk. pose proof PI_RGT_0.
      apply (Rmult_eq_reg_r (PI / INR N)); [|apply Rgt_not_eq, Rdiv_lt_0_compat; [lra | apply lt_0_INR; lia]].
      replace (IZR d * (PI / INR N)) with (2 * PI * IZR d / INR N / 2) by (field; exact HNr).
      rewrite Hk. field. exact HNr. }
    rewrite INR_IZR_INZ, <- mult_IZR in E. apply eq_IZR in E.
    assert (Hc : (k = 0 \/ 1 <= k \/ k <= -1)%Z) by lia.
    destruct Hc as [Hc|[Hc|Hc]]; nia. }
  assert (Ht : (INR N - 1 / 2) * t = - (t / 2) + 2 * IZR d * PI)
    by (unfold t; field; exact HNr).
  split.
  - pose proof (tele_cos t N) as T. rewrite Ht, sin_shift_Z, sin_neg in T.
    apply (Rmult_eq_reg_l (2 * sin (t / 2))); [rewrite T; ring | lra].
  - pose proof (tele_sin t N) as T. rewrite Ht, cos_shift_Z, cos_neg in T.
    apply (Rmult_eq_reg_l (2 * sin (t / 2))); [rewrite T; ring | lra].
Qed.

Lemma phase_diff (N k j m : nat) :
  2 * PI * INR (k * m) / INR N - 2 * PI * INR (j * m) / INR N
  = INR m * (2 * PI * IZR (Z.of_nat k - Z.of_nat j) / INR N).
Proof. rewrite !mult_INR, minus_IZR, <- !INR_IZR_INZ. unfold Rdiv. ring. Qed.

Lemma orth (N k j : nat) :
  (0 < N)%nat -> (k < N)%nat -> (j < N)%nat ->
  ksum SR N (fun m => cos (2 * PI * INR (k * m) / INR N - 2 * PI * INR (j * m) / INR N))
  = (if Nat.eqb j k then INR N else 0) /\
  ksum SR N (fun m => sin (2 * PI * INR (k * m) / INR N - 2 * PI * INR (j * m) / INR N)) = 0.
Proof.
  intros HN Hk Hj.
  rewrite (ksum_R_ext N _ (fun m => cos (INR m * (2 * PI * IZR (Z.of_nat k - Z.of_nat j) / INR N))))
    by (intros; cbv beta; rewrite phase_diff; reflexivity).
  rewrite (ksum_R_ext N (fun m => sin (2 * PI * INR (k * m) / INR N - 2 * PI * INR (j * m) / INR N))
             (fun m => sin (INR m * (2 * PI * IZR (Z.of_nat k - Z.of_nat j) / INR N))))
    by (intros; cbv beta; rewrite phase_diff; reflexivity).
  destruct (Nat.eq_dec j k) as [->|Hne].
  - rewrite Nat.eqb_refl, Z.sub_diag. split.
    + transitivity (ksum SR N (fun _ => 1)); [|apply ksum_R_const].
      apply ksum_R_ext. intros i _.
      replace (INR i * (2 * PI * IZR 0 / INR N)) with 0 by (cbn [IZR]; unfold Rdiv; ring).
      apply cos_0.
    + transitivity (ksum SR N (fun _ => 0)); [|apply ksum_R_0].
      apply ksum_R_ext. intros i _.
      replace (INR i * (2 * PI * IZR 0 / INR N)) with 0 by (cbn [IZR]; unfold Rdiv; ring).
      apply sin_0.
  - replace (Nat.eqb j k) with false by (symmetry; apply Nat.eqb_neq; exact Hne).
    apply orth_nonzero; lia.
Qed.

Lemma ksum_R_swap3 (n : nat) (F : nat -> nat -> nat -> R) :
  ksum SR n (fun m => ksum SR n (fun k => ksum SR n (fun j => F m k j)))
  = ksum SR n (fun k => ksum SR n (fun j => ksum SR n (fun m => F m k j))).
Proof.
  rewrite ksum_R_swap. apply ksum_R_ext. intros k _. apply ksum_R_swap.
Qed.

(** Parseval's identity for the one-dimensional inverse transform without
    its [1/N] factor. *)
Lemma parseval_1d (N : nat) (h : nat -> R * R) :
  (0 < N)%nat ->
  ksum SR N (fun m =>
    let z := csum SR N (fun k => Cmul SR (h k)
               (cos (2 * PI * INR (k * m) / INR N), sin (2 * PI * INR (k * m) / INR N))) in
    fst z * fst z + snd z * snd z)
  = INR N * ksum SR N (fun k => fst (h k) * fst (h k) + snd (h k) * snd (h k)).
Proof.
  intros HN.
  pose (th := fun k m : nat => 2 * PI * INR (k * m) / INR N).
  pose (X := fun m k j : nat =>
    (fst (h k) * fst (h j) + snd (h k) * snd (h j)) * cos (th k m - th j m)
    + (fst (h k) * snd (h j) - snd (h k) * fst (h j)) * sin (th k m - th j m)).
  transitivity (ksum SR N (fun m => ksum SR N (fun k => ksum SR N (fun j => X m k j)))).
  { apply ksum_R_ext. intros m _. cbv zeta.
    rewrite csum_R_fst, csum_R_snd, !ksum_R_mul, <- ksum_R_plus.
    apply ksum_R_ext. intros k _. cbv beta. rewrite <- ksum_R_plus.
    apply ksum_R_ext. intros j _.
    unfold X, th, Cmul. cbn [fst snd s_add s_sub s_mul SR]. rewrite cos_minus, sin_minus. ring. }
  rewrite (ksum_R_swap3 N X).
  transitivity (ksum SR N (fun k => ksum SR N (fun j =>
    if Nat.eqb j k then (fst (h k) * fst (h j) + snd (h k) * snd (h j)) * INR N else 0))).
  { apply ksum_R_ext. intros k Hk. apply ksum_R_ext. intros j Hj. unfold X, th. cbv beta.
    rewrite ksum_R_plus, ksum_R_scale, ksum_R_scale.
    destruct (orth N k j HN Hk Hj) as [C S]. rewrite C, S.
    destruct (Nat.eqb j k); ring. }
  transitivity (ksum SR N (fun k => (fst (h k) * fst (h k) + snd (h k) * snd (h k)) * INR N)).
  { apply ksum_R_ext. intros k Hk.
    exact (ksum_R_delta N k (fun j => (fst (h k) * fst (h j) + snd (h k) * snd (h j)) * INR N) Hk). }
  rewrite ksum_R_scale_r. ring.
Qed.

Lemma csum_R_ext (n : nat) (f g : nat -> R * R) :
  (forall i, (i < n)%nat -> f i = g i) -> csum SR n f = csum SR n g.
Proof.
  induction n as [|n IH]; intros H; [reflexivity|].
  cbn [csum]. rewrite IH by (intros; apply H; lia). now rewrite H by lia.
Qed.

Lemma Cmul_R_assoc (a b c : R * R) : Cmul SR a (Cmul SR b c) = Cmul SR (Cmul SR a b) c.
Proof.
  destruct a as [a1 a2], b as [b1 b2], c as [c1 c2]. unfold Cmul.
  cbn [fst snd s_add s_sub s_mul SR]. f_equal; ring.
Qed.

(** The two-dimensional twiddle factor is the product of one factor per axis. *)
Lemma twiddle_split (k l m n : nat) :
  twiddle SR 1 k l m n
  = Cmul SR (cos (2 * PI * INR (l * n) / INR Nx), sin (2 * PI * INR (l * n) / INR Nx))
            (cos (2 * PI * INR (k * m) / INR Ny), sin (2 * PI * INR (k * m) / INR Ny)).
Proof.
  unfold twiddle, Cmul. cbn [fst snd s_of_R s_add s_sub s_mul SR].
  replace (2 * PI * (INR (k * m) / INR Ny + INR (l * n) / INR Nx))
    with (2 * PI * INR (l * n) / INR Nx + 2 * PI * INR (k * m) / INR Ny) by (unfold Rdiv; ring).
  rewrite cos_plus, sin_plus. f_equal; ring.
Qed.

Lemma ifft2_sum (g : field) (m n : nat) :
  csum SR Ny (fun k => csum SR Nx (fun l => Cmul SR (g k l) (twiddle SR 1 k l m n)))
  = csum SR Ny (fun k => Cmul SR
      (csum SR Nx (fun l => Cmul SR (g k l)
         (cos (2 * PI * INR (l * n) / INR Nx), sin (2 * PI * INR (l * n) / INR Nx))))
      (cos (2 * PI * INR (k * m) / INR Ny), sin (2 * PI * INR (k * m) / INR Ny))).
Proof.
  apply csum_R_ext. intros k _. rewrite <- csum_R_Cmul_r.
  apply csum_R_ext. intros l _. rewrite twiddle_split. apply Cmul_R_assoc.
Qed.

(** Parseval's identity for [ifft2]: the atom number of the spatial field is
    [sum |g|^2 / (Nx Ny)]. *)
Lemma ifft2_norm (g : field) :
  atom_number SR (ifft2 SR g)
  = ksum SR Ny (fun k => ksum SR Nx (fun l => fst (g k l) * fst (g k l) + snd (g k l) * snd (g k l)))
    / INR (Ny * Nx).
Proof.
  assert (HNy : (0 < Ny)%nat) by (unfold Ny; lia).
  assert (HNx : (0 < Nx)%nat) by (unfold Nx; lia).
  assert (HD : INR (Ny * Nx) <> 0) by (apply not_0_INR; lia).
  pose (T := fun k n : nat => csum SR Nx (fun l => Cmul SR (g k l)
               (cos (2 * PI * INR (l * n) / INR Nx), sin (2 * PI * INR (l * n) / INR Nx)))).
  rewrite atom_number_R.
  transitivity (ksum SR Nx (fun n => ksum SR Ny (fun m =>
     let z := csum SR Ny (fun k => Cmul SR (T k n)
                (cos (2 * PI * INR (k * m) / INR Ny), sin (2 * PI * INR (k * m) / INR Ny))) in
     fst z * fst z + snd z * snd z)) / (INR (Ny * Nx) * INR (Ny * Nx))).
  { rewrite <- ksum_R_div, ksum_R_swap.
    apply ksum_R_ext. intros n _. rewrite <- ksum_R_div.
    apply ksum_R_ext. intros m _. unfold ifft2, T. cbv beta zeta.
    rewrite ifft2_sum. unfold Cdiv_re. cbn [fst snd s_div s_of_R SR]. field. exact HD. }
  transitivity (ksum SR Nx (fun n => INR Ny * ksum SR Ny (fun k =>
     let z := T k n in fst z * fst z + snd z * snd z)) / (INR (Ny * Nx) * INR (Ny * Nx))).
  { f_equal. apply ksum_R_ext. intros n _. exact (parseval_1d Ny (fun k => T k n) HNy). }
  rewrite ksum_R_scale, ksum_R_swap.
  transitivity (INR Ny * ksum SR Ny (fun k => INR Nx * ksum SR Nx (fun l =>
     fst (g k l) * fst (g k l) + snd (g k l) * snd (g k l))) / (INR (Ny * Nx) * INR (Ny * Nx))).
  { do 2 f_equal. apply ksum_R_ext. intros k _. exact (parseval_1d Nx (g k) HNx). }
  rewrite ksum_R_scale. rewrite mult_INR in *. field.
  split; intros E; apply HD; rewrite E; ring.
Qed.

(** The kinetic factor for a real step has modulus one. *)
Lemma kinetic_abs (psi_k : field) (s : R) (k l : nat) :
  let z := kinetic_evolution SR psi_k (s, 0) k l in
  fst z * fst z + snd z * snd z
  = fst (psi_k k l) * fst (psi_k k l) + snd (psi_k k l) * snd (psi_k k l).
Proof.
  cbv zeta. unfold kinetic_evolution. rewrite Cexp_neg_i_R. cbn [fst snd].
  rewrite Rmult_0_l, exp_0, !Rmult_1_l.
  destruct (psi_k k l) as [a b]. unfold Cmul. cbn [fst snd s_add s_sub s_mul SR].
  set (x := - (s * s_of_R SR ((Kx k l ^ 2 + Ky k l ^ 2) / 2))).
  pose proof (sin2_cos2 x) as E. unfold Rsqr in E.
  transitivity ((a * a + b * b) * (sin x * sin x + cos x * cos x)); [ring|].
  rewrite E. ring.
Qed.

(** ** C6 *)
(** C6 (spec-modelled kinetic step): for every conjugate-domain field
    [psi_k] and every real step [s], multiplying by the kinetic factor
    [exp(-i s (Kx^2 + Ky^2) / 2)] leaves the spatial atom number
    [dx dy sum |ifft2 psi_k|^2] unchanged; both equal
    [sum |psi_k|^2 / (Nx Ny)]. *)
Theorem kinetic_preserves_norm (psi_k : field) (s : R) :
  atom_number SR (ifft2 SR (kinetic_evolution SR psi_k (s, 0)))
  = atom_number SR (ifft2 SR psi_k) /\
  atom_number SR (ifft2 SR psi_k)
  = ksum SR Ny (fun k => ksum SR Nx (fun l =>
      fst (psi_k k l) * fst (psi_k k l) + snd (psi_k k l) * snd (psi_k k l))) / INR (Ny * Nx).
Proof.
  split; [|apply ifft2_norm].
  rewrite !ifft2_norm. f_equal.
  apply ksum_R_ext. intros k _. apply ksum_R_ext. intros l _. apply kinetic_abs.
Qed.

End ParsevalFacts.

(** ** Renormalisation by a zero atom number, in floating point *)
Module NaNFacts.
Import Num Field.
Local Open Scope R_scope.

Lemma is_zero_true (r : R) : r = 0 -> is_zero r = true.
Proof. intros ->. unfold is_zero. destruct (Req_EM_T 0 0); [reflexivity | congruence]. Qed.

Lemma is_zero_false (r : R) : r <> 0 -> is_zero r = false.
Proof. intros H. unfold is_zero. destruct (Req_EM_T r 0); [congruence | reflexivity]. Qed.

Lemma xsqrt_0 : xsqrt (Fin 0) = Fin 0.
Proof. unfold xsqrt, is_neg. destruct (Rlt_dec 0 0); [lra|]. now rewrite sqrt_0. Qed.

Lemma xadd_nan_r (a : xR) : xadd a NaN = NaN.
Proof. destruct a as [|[]|]; reflexivity. Qed.

Lemma xmul_nan_r (a : xR) : xmul a NaN = NaN.
Proof. destruct a as [|[]|]; reflexivity. Qed.

Lemma Cabs_zero : Cabs SX (Fin 0, Fin 0) = Fin 0.
Proof.
  change (Cabs SX (Fin 0, Fin 0)) with (xsqrt (Fin (0 * 0 + 0 * 0))).
  replace (0 * 0 + 0 * 0) with 0 by ring. apply xsqrt_0.
Qed.

Lemma Cmul_zero_fin (a b : R) : Cmul SX (Fin 0, Fin 0) (Fin a, Fin b) = (Fin 0, Fin 0).
Proof.
  change (Cmul SX (Fin 0, Fin 0) (Fin a, Fin b)) with (Fin (0 * a + - (0 * b)), Fin (0 * b + 0 * a)).
  f_equal; f_equal; ring.
Qed.

Lemma Cmul_zero_l (w : xR * xR) :
  (exists a b, w = (Fin a, Fin b)) -> Cmul SX (Fin 0, Fin 0) w = (Fin 0, Fin 0).
Proof. intros (a & b & ->). apply Cmul_zero_fin. Qed.

Lemma Cmul_nan_l (w : xR * xR) : Cmul SX (NaN, NaN) w = (NaN, NaN).
Proof. reflexivity. Qed.

Lemma ksum_zero (n : nat) (f : nat -> xR) : (forall i, f i = Fin 0) -> ksum SX n f = Fin 0.
Proof.
  intros H. induction n as [|n IH]; [reflexivity|].
  cbn [ksum]. rewrite IH, H. cbn. now rewrite Rplus_0_l.
Qed.

Lemma csum_zero (n : nat) (f : nat -> xR * xR) :
  (forall i, f i = (Fin 0, Fin 0)) -> csum SX n f = (Fin 0, Fin 0).
Proof.
  intros H. induction n as [|n IH]; [reflexivity|].
  cbn [csum]. rewrite IH, H. unfold Cadd. cbn. now rewrite Rplus_0_l.
Qed.

Lemma csum_nan (n : nat) (f : nat -> xR * xR) :
  f n = (NaN, NaN) -> csum SX (S n) f = (NaN, NaN).
Proof.
  intros H. cbn [csum]. rewrite H. unfold Cadd. cbn [fst snd s_add SX].
  now rewrite !xadd_nan_r.
Qed.

Lemma fft2_zero (f : @field xR) : zero_field f -> zero_field (fft2 SX f).
Proof.
  intros H k l. unfold fft2. apply csum_zero. intros m. apply csum_zero. intros n.
  rewrite H. unfold twiddle. apply Cmul_zero_fin.
Qed.

Lemma ifft2_zero (f : @field xR) : zero_field f -> zero_field (ifft2 SX f).
Proof.
  intros H m n. unfold ifft2.
  erewrite csum_zero;
    [| intros k; apply csum_zero; intros l; rewrite H; unfold twiddle; apply Cmul_zero_fin].
  unfold Cdiv_re. cbn [fst snd s_div s_of_R SX xdiv].
  rewrite is_zero_false by (apply not_0_INR; unfold Ny, Nx; lia).
  unfold Rdiv. rewrite Rmult_0_l. reflexivity.
Qed.

Lemma fft2_nan (f : @field xR) : nan_field f -> nan_field (fft2 SX f).
Proof.
  intros H k l. unfold fft2, Ny. apply csum_nan. cbv beta. unfold Nx. apply csum_nan.
  rewrite H. apply Cmul_nan_l.
Qed.

Lemma ifft2_nan (f : @field xR) : nan_field f -> nan_field (ifft2 SX f).
Proof.
  intros H m n. unfold ifft2, Ny. rewrite (csum_nan 127); [reflexivity|].
  cbv beta. unfold Nx. apply csum_nan. rewrite H. apply Cmul_nan_l.
Qed.

Lemma kinetic_zero (f : @field xR) : zero_field f -> zero_field (kinetic_evolution SX f (imag_dt SX)).
Proof.
  intros H m n. unfold kinetic_evolution. rewrite H. apply Cmul_zero_l.
  do 2 eexists. reflexivity.
Qed.

Lemma kinetic_nan (f : @field xR) (step : xR * xR) :
  nan_field f -> nan_field (kinetic_evolution SX f step).
Proof. intros H m n. unfold kinetic_evolution. rewrite H. apply Cmul_nan_l. Qed.

Lemma potential_zero (f1 f2 : @field xR) :
  zero_field f1 -> zero_field f2 ->
  let p := potential_evolution SX f1 f2 (imag_dt SX) (s_of_R SX g1) (s_of_R SX g2)
             (s_of_R SX g12) (s_of_R SX mu_1) (s_of_R SX mu_2) in
  zero_field (fst p) /\ zero_field (snd p).
Proof.
  intros H1 H2 p. split; intros m n; unfold p, potential_evolution; cbn [fst snd];
    rewrite !H1, !H2, !Cabs_zero; apply Cmul_zero_l; do 2 eexists; reflexivity.
Qed.

Lemma potential_nan (f1 f2 : @field xR) (step : xR * xR) (a b c d e : xR) :
  nan_field f1 -> nan_field f2 ->
  nan_field (fst (potential_evolution SX f1 f2 step a b c d e)) /\
  nan_field (snd (potential_evolution SX f1 f2 step a b c d e)).
Proof.
  intros H1 H2. split; intros m n; unfold potential_evolution; cbn [fst snd];
    rewrite ?H1, ?H2; apply Cmul_nan_l.
Qed.

Lemma atom_number_zero (f : @field xR) : zero_field f -> atom_number SX f = Fin 0.
Proof.
  intros H. unfold atom_number. rewrite ksum_zero.
  2: { intros m. apply ksum_zero. intros n. rewrite H, Cabs_zero. cbn. now rewrite Rmult_0_l. }
  cbn [s_mul s_of_R SX xmul]. now rewrite Rmult_0_r.
Qed.

(** Lines 93-94 at a point where the field is zero, dividing by the square
    root of a zero atom number: [0 / 0], whatever the stored atom number. *)
Lemma renormalise_zero (N : xR) (f : @field xR) (m n : nat) :
  f m n = (Fin 0, Fin 0) -> renormalise SX N (Fin 0) f m n = (NaN, NaN).
Proof.
  intros H. unfold renormalise, Cdiv_re, Cscale. rewrite H.
  cbn [fst snd s_sqrt s_mul s_div SX]. rewrite xsqrt_0.
  destruct (xsqrt N) as [r|s|]; cbn [xmul xdiv].
  - rewrite (is_zero_true 0) by reflexivity. rewrite (is_zero_true (r * 0)) by ring.
    reflexivity.
  - rewrite (is_zero_true 0) by reflexivity. reflexivity.
  - reflexivity.
Qed.

Lemma renormalise_nan (N d : xR) (f : @field xR) : nan_field f -> nan_field (renormalise SX N d f).
Proof.
  intros H m n. unfold renormalise, Cdiv_re, Cscale. rewrite H.
  cbn [fst snd s_mul s_div SX]. rewrite !xmul_nan_r. reflexivity.
Qed.

Lemma fix_phase_nan (th : nat -> nat -> xR) (f : @field xR) :
  nan_field f -> nan_field (fix_phase SX th f).
Proof. intros H m n. unfold fix_phase. rewrite H. apply Cmul_nan_l. Qed.

Lemma kinetic_half_zero (st : @gstate xR) :
  zero_field (psi_1_k st) /\ zero_field (psi_2_k st) ->
  zero_field (psi_1_k (stage_kinetic_half SX (imag_dt SX) st)) /\
  zero_field (psi_2_k (stage_kinetic_half SX (imag_dt SX) st)).
Proof. intros [H1 H2]. split; apply kinetic_zero; assumption. Qed.

Lemma to_spatial_zero (st : @gstate xR) :
  zero_field (psi_1_k st) /\ zero_field (psi_2_k st) ->
  zero_field (psi_1 (stage_to_spatial SX st)) /\ zero_field (psi_2 (stage_to_spatial SX st)).
Proof. intros [H1 H2]. split; apply ifft2_zero; assumption. Qed.

Lemma stage_potential_zero (st : @gstate xR) :
  zero_field (psi_1 st) /\ zero_field (psi_2 st) ->
  zero_field (psi_1 (stage_potential SX (imag_dt SX) st)) /\
  zero_field (psi_2 (stage_potential SX (imag_dt SX) st)).
Proof. intros [H1 H2]. exact (potential_zero _ _ H1 H2). Qed.

Lemma to_conjugate_zero (st : @gstate xR) :
  zero_field (psi_1 st) /\ zero_field (psi_2 st) ->
  zero_field (psi_1_k (stage_to_conjugate SX st)) /\ zero_field (psi_2_k (stage_to_conjugate SX st)).
Proof. intros [H1 H2]. split; apply fft2_zero; assumption. Qed.

Lemma stage_renormalise_zero (c : @gconst xR) (st : @gstate xR) :
  zero_field (psi_1_k st) /\ zero_field (psi_2_k st) ->
  nan_field (psi_1_k (stage_renormalise SX c st)) /\ nan_field (psi_2_k (stage_renormalise SX c st)).
Proof.
  intros [H1 H2]. split; apply fft2_nan; intros m n;
    rewrite atom_number_zero by (apply ifft2_zero; assumption);
    apply renormalise_zero; apply ifft2_zero; assumption.
Qed.

Lemma kinetic_half_nan (st : @gstate xR) :
  nan_field (psi_1_k st) /\ nan_field (psi_2_k st) ->
  nan_field (psi_1_k (stage_kinetic_half SX (imag_dt SX) st)) /\
  nan_field (psi_2_k (stage_kinetic_half SX (imag_dt SX) st)).
Proof. intros [H1 H2]. split; apply kinetic_nan; assumption. Qed.

Lemma to_spatial_nan (st : @gstate xR) :
  nan_field (psi_1_k st) /\ nan_field (psi_2_k st) ->
  nan_field (psi_1 (stage_to_spatial SX st)) /\ nan_field (psi_2 (stage_to_spatial SX st)).
Proof. intros [H1 H2]. split; apply ifft2_nan; assumption. Qed.

Lemma stage_potential_nan (st : @gstate xR) :
  nan_field (psi_1 st) /\ nan_field (psi_2 st) ->
  nan_field (psi_1 (stage_potential SX (imag_dt SX) st)) /\
  nan_field (psi_2 (stage_potential SX (imag_dt SX) st)).
Proof. intros [H1 H2]. exact (potential_nan _ _ _ _ _ _ _ _ H1 H2). Qed.

Lemma to_conjugate_nan (st : @gstate xR) :
  nan_field (psi_1 st) /\ nan_field (psi_2 st) ->
  nan_field (psi_1_k (stage_to_conjugate SX st)) /\ nan_field (psi_2_k (stage_to_conjugate SX st)).
Proof. intros [H1 H2]. split; apply fft2_nan; assumption. Qed.

Lemma stage_renormalise_nan (c : @gconst xR) (st : @gstate xR) :
  nan_field (psi_1_k st) /\ nan_field (psi_2_k st) ->
  nan_field (psi_1_k (stage_renormalise SX c st)) /\ nan_field (psi_2_k (stage_renormalise SX c st)).
Proof.
  intros [H1 H2]. split; apply fft2_nan, renormalise_nan, ifft2_nan; assumption.
Qed.

Lemma phase_lock_nan (c : @gconst xR) (st : @gstate xR) :
  nan_field (psi_1_k st) /\ nan_field (psi_2_k st) -> nan_state (stage_phase_lock SX c st).
Proof.
  intros [H1 H2]. unfold nan_state.
  split; [|split; [|split]].
  - apply fix_phase_nan, ifft2_nan, H1.
  - apply fix_phase_nan, ifft2_nan, H2.
  - apply fft2_nan, fix_phase_nan, ifft2_nan, H1.
  - apply fft2_nan, fix_phase_nan, ifft2_nan, H2.
Qed.

(** One iteration from zero conjugate fields divides [0] by [0]: every field
    it leaves is NaN. *)
Lemma strang_from_zero (c : @gconst xR) (st : @gstate xR) :
  zero_field (psi_1_k st) /\ zero_field (psi_2_k st) -> nan_state (strang_iteration SX c st).
Proof.
  intros H. unfold strang_iteration.
  apply phase_lock_nan, stage_renormalise_zero, kinetic_half_zero, to_conjugate_zero,
    stage_potential_zero, to_spatial_zero, kinetic_half_zero, H.
Qed.

Lemma strang_nan (c : @gconst xR) (st : @gstate xR) :
  nan_state st -> nan_state (strang_iteration SX c st).
Proof.
  intros (_ & _ & H1 & H2). unfold strang_iteration.
  apply phase_lock_nan, stage_renormalise_nan, kinetic_half_nan, to_conjugate_nan,
    stage_potential_nan, to_spatial_nan, kinetic_half_nan. split; assumption.
Qed.

Lemma relax_loop_nan (c : @gconst xR) (k : nat) :
  forall st d, nan_state st -> nan_state (fst (relax_loop SX k c st d)).
Proof.
  induction k as [|k IH]; intros st d H; cbn [relax_loop fst]; [exact H|].
  apply IH. rewrite RelaxFacts.relax_body_strang. apply strang_nan, H.
Qed.

Lemma relax_loop_S {K : Type} (Sc : scalar K) (c : gconst) (k : nat) (st : gstate) (d : nat) :
  relax_loop Sc (S k) c st d = relax_loop Sc k c (relax_body Sc c st) (S d).
Proof. reflexivity. Qed.

Lemma relax_count {K : Type} (Sc : scalar K) (c : gconst) (st : gstate) :
  snd (relax Sc c st) = n_iter.
Proof. unfold relax. rewrite RelaxFacts.relax_loop_iter. reflexivity. Qed.

Lemma renorm_divisors_zero (st : @gstate xR) :
  zero_field (psi_1_k st) -> zero_field (psi_2_k st) -> renorm_divisors SX st = (Fin 0, Fin 0).
Proof.
  intros H1 H2.
  pose proof (kinetic_half_zero _ (to_conjugate_zero _ (stage_potential_zero _
    (to_spatial_zero _ (kinetic_half_zero _ (conj H1 H2)))))) as [Z1 Z2].
  change (renorm_divisors SX st) with
    (atom_number SX (ifft2 SX (psi_1_k (stage_kinetic_half SX (imag_dt SX) (stage_to_conjugate SX
       (stage_potential SX (imag_dt SX) (stage_to_spatial SX
         (stage_kinetic_half SX (imag_dt SX) st))))))),
     atom_number SX (ifft2 SX (psi_2_k (stage_kinetic_half SX (imag_dt SX) (stage_to_conjugate SX
       (stage_potential SX (imag_dt SX) (stage_to_spatial SX
         (stage_kinetic_half SX (imag_dt SX) st)))))))).
  rewrite (atom_number_zero _ (ifft2_zero _ Z1)), (atom_number_zero _ (ifft2_zero _ Z2)).
  reflexivity.
Qed.

(** Non-negative extended values: what [|z|] and [|z|^2] can be. *)
Definition nnx (x : xR) : Prop :=
  match x with Fin r => 0 <= r | Inf b => b = false | NaN => True end.

Lemma xadd_nnx (a b : xR) : nnx a -> nnx b -> nnx (xadd a b).
Proof.
  destruct a as [r|[]|], b as [s|[]|]; cbn; intros Ha Hb; try discriminate; auto; lra.
Qed.

Lemma xmul_nnx (a b : xR) : nnx a -> nnx b -> nnx (xmul a b).
Proof.
  destruct a as [r|[]|], b as [s|[]|]; cbn; intros Ha Hb; try discriminate; auto.
  - apply Rmult_le_pos; assumption.
  - destruct (is_zero r); cbn; [trivial|].
    unfold is_neg. destruct (Rlt_dec r 0); [lra | reflexivity].
  - destruct (is_zero s); cbn; [trivial|].
    unfold is_neg. destruct (Rlt_dec s 0); [lra | reflexivity].
Qed.

Lemma Cabs_nnx (z : xR * xR) : nnx (Cabs SX z).
Proof.
  unfold Cabs. cbn [s_sqrt SX].
  destruct (s_add SX _ _) as [r|[]|]; cbn; [|trivial|reflexivity|trivial].
  destruct (is_neg r); cbn; [trivial | apply sqrt_pos].
Qed.

Lemma xadd_zero_inv (a b : xR) :
  nnx a -> nnx b -> xadd a b = Fin 0 -> a = Fin 0 /\ b = Fin 0.
Proof.
  destruct a as [r|[]|], b as [s|[]|]; cbn; intros Ha Hb E; try discriminate.
  injection E as E. split; f_equal; lra.
Qed.

Lemma ksum_nnx (n : nat) (g : nat -> xR) : (forall i, nnx (g i)) -> nnx (ksum SX n g).
Proof.
  intros H. induction n as [|n IH]; cbn [ksum]; [cbn; lra|]. apply xadd_nnx; auto.
Qed.

Lemma ksum_zero_inv (n : nat) (g : nat -> xR) :
  (forall i, nnx (g i)) -> ksum SX n g = Fin 0 -> forall i, (i < n)%nat -> g i = Fin 0.
Proof.
  intros H. induction n as [|n IH]; intros E i Hi; [lia|].
  cbn [ksum] in E. destruct (xadd_zero_inv _ _ (ksum_nnx n g H) (H n) E) as [E1 E2].
  destruct (Nat.eq_dec i n) as [->|Hne]; [exact E2|]. apply IH; [exact E1 | lia].
Qed.

Lemma xmul_self_zero (a : xR) : nnx a -> xmul a a = Fin 0 -> a = Fin 0.
Proof.
  destruct a as [r|[]|]; cbn; intros Ha E; try discriminate.
  injection E as E. f_equal. nra.
Qed.

Lemma Cabs_zero_inv (z : xR * xR) : Cabs SX z = Fin 0 -> z = (Fin 0, Fin 0).
Proof.
  destruct z as [a b]. unfold Cabs. cbn [fst snd s_sqrt s_add s_mul SX].
  destruct a as [x|[]|], b as [y|[]|]; cbn; intros E; try discriminate.
  destruct (is_neg (x * x + y * y)) eqn:En; [discriminate|].
  injection E as E. unfold is_neg in En.
  destruct (Rlt_dec (x * x + y * y) 0) as [Hl|Hl]; [discriminate|].
  apply sqrt_eq_0 in E; [|lra].
  assert (x = 0) by nra. assert (y = 0) by nra. subst. reflexivity.
Qed.

(** A zero atom number (lines 91-92) leaves no atom anywhere on the grid. *)
Lemma atom_number_zero_inv (f : @field xR) :
  atom_number SX f = Fin 0 -> forall m n, (m < Ny)%nat -> (n < Nx)%nat -> f m n = (Fin 0, Fin 0).
Proof.
  intros E m n Hm Hn. unfold atom_number in E. cbn [s_mul s_of_R SX] in E.
  assert (Hd : dx * dy = 1) by (unfold dx, dy; ring).
  assert (S0 : ksum SX Ny (fun m => ksum SX Nx (fun n => s_mul SX (Cabs SX (f m n)) (Cabs SX (f m n)))) = Fin 0).
  { destruct (ksum SX Ny _) as [r|[]|]; cbn in E.
    - injection E as E. rewrite Hd in E. f_equal. lra.
    - rewrite is_zero_false in E by lra. discriminate.
    - rewrite is_zero_false in E by lra. discriminate.
    - discriminate. }
  assert (Hnn : forall m n, nnx (s_mul SX (Cabs SX (f m n)) (Cabs SX (f m n))))
    by (intros; apply xmul_nnx; apply Cabs_nnx).
  pose proof (ksum_zero_inv Ny _ (fun m => ksum_nnx Nx _ (fun n => Hnn m n)) S0 m Hm) as S1.
  cbv beta in S1. pose proof (ksum_zero_inv Nx _ (fun n => Hnn m n) S1 n Hn) as S2.
  apply Cabs_zero_inv, xmul_self_zero; [apply Cabs_nnx | exact S2].
Qed.

(** One NaN at a grid point makes every point of [fft2] NaN. *)
Lemma fft2_nan_pt (f : @field xR) : f 127%nat 127%nat = (NaN, NaN) -> nan_field (fft2 SX f).
Proof.
  intros H k l. unfold fft2, Ny. apply csum_nan. cbv beta. unfold Nx. apply csum_nan.
  rewrite H. apply Cmul_nan_l.
Qed.

Lemma Cmul_nan_fst_r (z : xR * xR) (x : xR) : Cmul SX z (NaN, x) = (NaN, NaN).
Proof.
  destruct z as [a b]. unfold Cmul. cbn [fst snd s_mul s_add s_sub SX].
  rewrite !xmul_nan_r, xadd_nan_r. reflexivity.
Qed.

Lemma Cmul_nan_r (z : xR * xR) : Cmul SX z (NaN, NaN) = (NaN, NaN).
Proof. apply Cmul_nan_fst_r. Qed.

Lemma xsub_nan_l (b : xR) : xsub NaN b = NaN.
Proof. reflexivity. Qed.

(** The potential step (lines 81, 140): a NaN in either component spreads
    to both, through the coupling [g12]. *)
Lemma potential_nan_one (f1 f2 : @field xR) (step : xR * xR) :
  nan_field f1 \/ nan_field f2 ->
  let p := potential_evolution SX f1 f2 step (s_of_R SX g1) (s_of_R SX g2)
             (s_of_R SX g12) (s_of_R SX mu_1) (s_of_R SX mu_2) in
  nan_field (fst p) /\ nan_field (snd p).
Proof.
  intros [H|H] p; split; intros m n; unfold p, potential_evolution; cbn [fst snd];
    rewrite H; [apply Cmul_nan_l| | |apply Cmul_nan_l];
    change (Cabs SX (NaN, NaN)) with NaN;
    cbn [s_mul s_add s_sub s_of_R SX]; rewrite ?xmul_nan_r, ?xadd_nan_r, xsub_nan_l;
    rewrite Cmul_nan_fst_r; unfold Cneg_i; rewrite Cmul_nan_r;
    change (Cexp SX (NaN, NaN)) with (NaN, NaN); rewrite ?Cmul_nan_r; reflexivity.
Qed.

(** Finite values, and what keeps them finite. *)
Definition finx (x : xR) : Prop := exists r, x = Fin r.
Definition fin2 (z : xR * xR) : Prop := finx (fst z) /\ finx (snd z).
Definition fin_field (f : @field xR) : Prop := forall m n, fin2 (f m n).

Lemma xadd_fin (a b : xR) : finx a -> finx b -> finx (xadd a b).
Proof. intros [r ->] [s ->]. eexists. reflexivity. Qed.

Lemma xmul_fin (a b : xR) : finx a -> finx b -> finx (xmul a b).
Proof. intros [r ->] [s ->]. eexists. reflexivity. Qed.

Lemma xsub_fin (a b : xR) : finx a -> finx b -> finx (xsub a b).
Proof. intros [r ->] [s ->]. eexists. reflexivity. Qed.

Lemma Cmul_fin (z w : xR * xR) : fin2 z -> fin2 w -> fin2 (Cmul SX z w).
Proof.
  intros [Hz1 Hz2] [Hw1 Hw2]. unfold Cmul. cbn [fst snd s_mul s_add s_sub SX].
  split; [apply xsub_fin | apply xadd_fin]; apply xmul_fin; assumption.
Qed.

Lemma Cexp_fin (z : xR * xR) : fin2 z -> fin2 (Cexp SX z).
Proof.
  destruct z as [a b]. intros [[x Hx] [y Hy]]. cbn [fst snd] in Hx, Hy. subst.
  split; eexists; reflexivity.
Qed.

Lemma Cneg_i_fin (z : xR * xR) : fin2 z -> fin2 (Cneg_i SX z).
Proof. intros H. apply Cmul_fin; [split; eexists; reflexivity | exact H]. Qed.

Lemma Cabs_fin (z : xR * xR) : fin2 z -> finx (Cabs SX z).
Proof.
  destruct z as [a b]. intros [[x Hx] [y Hy]]. cbn [fst snd] in Hx, Hy. subst.
  change (Cabs SX (Fin x, Fin y)) with (xsqrt (Fin (x * x + y * y))).
  cbn [xsqrt]. unfold is_neg. destruct (Rlt_dec (x * x + y * y) 0); [nra|].
  eexists. reflexivity.
Qed.

Lemma csum_fin (n : nat) (f : nat -> xR * xR) : (forall i, fin2 (f i)) -> fin2 (csum SX n f).
Proof.
  intros H. induction n as [|n IH]; cbn [csum]; [split; eexists; reflexivity|].
  destruct IH as [I1 I2], (H n) as [F1 F2]. unfold Cadd. cbn [fst snd s_add SX].
  split; apply xadd_fin; assumption.
Qed.

Lemma ifft2_fin (f : @field xR) : fin_field f -> fin_field (ifft2 SX f).
Proof.
  intros H m n. unfold ifft2.
  assert (Hs : fin2 (csum SX Ny (fun k => csum SX Nx (fun l =>
                 Cmul SX (f k l) (twiddle SX 1 k l m n))))).
  { apply csum_fin. intros k. apply csum_fin. intros l.
    apply Cmul_fin; [apply H | split; eexists; reflexivity]. }
  destruct (csum SX Ny _) as [a b]. destruct Hs as [[x Hx] [y Hy]].
  cbn [fst snd] in Hx, Hy. subst. unfold Cdiv_re. cbn [fst snd s_div s_of_R SX xdiv].
  rewrite is_zero_false by (apply not_0_INR; unfold Ny, Nx; lia).
  split; eexists; reflexivity.
Qed.

Lemma kinetic_fin (f : @field xR) (step : xR * xR) :
  fin_field f -> fin2 step -> fin_field (kinetic_evolution SX f step).
Proof.
  intros H Hs m n. unfold kinetic_evolution. apply Cmul_fin; [apply H|].
  apply Cexp_fin, Cneg_i_fin, Cmul_fin; [exact Hs | split; eexists; reflexivity].
Qed.

Lemma imag_dt_fin : fin2 (imag_dt SX).
Proof. apply Cneg_i_fin. split; eexists; reflexivity. Qed.

Lemma potential_fst_zero (f1 f2 : @field xR) (step : xR * xR) :
  zero_field f1 -> fin_field f2 -> fin2 step ->
  zero_field (fst (potential_evolution SX f1 f2 step (s_of_R SX g1) (s_of_R SX g2)
                     (s_of_R SX g12) (s_of_R SX mu_1) (s_of_R SX mu_2))).
Proof.
  intros H1 H2 Hs m n. unfold potential_evolution. cbn [fst]. rewrite H1.
  assert (Hf : fin2 (Cexp SX (Cneg_i SX (Cmul SX step
     (s_sub SX (s_add SX (s_mul SX (s_of_R SX g1) (s_mul SX (Cabs SX (Fin 0, Fin 0)) (Cabs SX (Fin 0, Fin 0))))
        (s_mul SX (s_of_R SX g12) (s_mul SX (Cabs SX (f2 m n)) (Cabs SX (f2 m n)))))
        (s_of_R SX mu_1), s_of_R SX 0))))).
  { apply Cexp_fin, Cneg_i_fin, Cmul_fin; [exact Hs|]. split; [|eexists; reflexivity].
    cbn [fst]. apply xsub_fin; [|eexists; reflexivity].
    apply xadd_fin; apply xmul_fin; try (eexists; reflexivity);
      apply xmul_fin; apply Cabs_fin; [split; eexists; reflexivity | split; eexists; reflexivity
                                      | apply H2 | apply H2]. }
  destruct Hf as [[a Ha] [b Hb]]. apply Cmul_zero_l. exists a, b.
  rewrite <- Ha, <- Hb. apply surjective_pairing.
Qed.

Lemma potential_snd_zero (f1 f2 : @field xR) (step : xR * xR) :
  fin_field f1 -> zero_field f2 -> fin2 step ->
  zero_field (snd (potential_evolution SX f1 f2 step (s_of_R SX g1) (s_of_R SX g2)
                     (s_of_R SX g12) (s_of_R SX mu_1) (s_of_R SX mu_2))).
Proof.
  intros H1 H2 Hs m n. unfold potential_evolution. cbn [snd]. rewrite H2.
  assert (Hf : fin2 (Cexp SX (Cneg_i SX (Cmul SX step
     (s_sub SX (s_add SX (s_mul SX (s_of_R SX g2) (s_mul SX (Cabs SX (Fin 0, Fin 0)) (Cabs SX (Fin 0, Fin 0))))
        (s_mul SX (s_of_R SX g12) (s_mul SX (Cabs SX (f1 m n)) (Cabs SX (f1 m n)))))
        (s_of_R SX mu_2), s_of_R SX 0))))).
  { apply Cexp_fin, Cneg_i_fin, Cmul_fin; [exact Hs|]. split; [|eexists; reflexivity].
    cbn [fst]. apply xsub_fin; [|eexists; reflexivity].
    apply xadd_fin; apply xmul_fin; try (eexists; reflexivity);
      apply xmul_fin; apply Cabs_fin; [split; eexists; reflexivity | split; eexists; reflexivity
                                      | apply H1 | apply H1]. }
  destruct Hf as [[a Ha] [b Hb]]. apply Cmul_zero_l. exists a, b.
  rewrite <- Ha, <- Hb. apply surjective_pairing.
Qed.

(** With a zero first component and a finite second one, the first
    divisor is [0]. *)
Lemma renorm_divisor_1_zero (st : @gstate xR) :
  zero_field (psi_1_k st) -> fin_field (psi_2_k st) -> fst (renorm_divisors SX st) = Fin 0.
Proof.
  intros H1 H2.
  change (fst (renorm_divisors SX st)) with
    (atom_number SX (ifft2 SX (kinetic_evolution SX (fft2 SX (fst (potential_evolution SX
       (ifft2 SX (kinetic_evolution SX (psi_1_k st) (imag_dt SX)))
       (ifft2 SX (kinetic_evolution SX (psi_2_k st) (imag_dt SX)))
       (imag_dt SX) (s_of_R SX g1) (s_of_R SX g2) (s_of_R SX g12) (s_of_R SX mu_1)
       (s_of_R SX mu_2)))) (imag_dt SX)))).
  apply atom_number_zero, ifft2_zero, kinetic_zero, fft2_zero, potential_fst_zero.
  - apply ifft2_zero, kinetic_zero, H1.
  - apply ifft2_fin, kinetic_fin; [exact H2 | exact imag_dt_fin].
  - exact imag_dt_fin.
Qed.

(** The state the renormalisation of an iteration works on (lines 73-88). *)
Local Abbreviation pre_renorm st :=
  (stage_kinetic_half SX (imag_dt SX) (stage_to_conjugate SX (stage_potential SX (imag_dt SX)
     (stage_to_spatial SX (stage_kinetic_half SX (imag_dt SX) st))))).

Lemma renorm_divisors_stages (st : @gstate xR) :
  renorm_divisors SX st = (atom_number SX (ifft2 SX (psi_1_k (pre_renorm st))),
                           atom_number SX (ifft2 SX (psi_2_k (pre_renorm st)))).
Proof. reflexivity. Qed.

Lemma fst_pair_eq {A B : Type} (a : A) (b : B) (x : A) : fst (a, b) = x -> a = x.
Proof. exact (fun H => H). Qed.

Lemma snd_pair_eq {A B : Type} (a : A) (b : B) (x : B) : snd (a, b) = x -> b = x.
Proof. exact (fun H => H). Qed.

Lemma strang_psi_1_k (c : @gconst xR) (st : @gstate xR) :
  psi_1_k (strang_iteration SX c st)
  = fft2 SX (fix_phase SX (theta_fix_1 c) (ifft2 SX (psi_1_k (stage_renormalise SX c (pre_renorm st))))).
Proof. reflexivity. Qed.

Lemma strang_psi_2_k (c : @gconst xR) (st : @gstate xR) :
  psi_2_k (strang_iteration SX c st)
  = fft2 SX (fix_phase SX (theta_fix_2 c) (ifft2 SX (psi_2_k (stage_renormalise SX c (pre_renorm st))))).
Proof. reflexivity. Qed.

Lemma renormalise_psi_1_k (c : @gconst xR) (X : @gstate xR) :
  psi_1_k (stage_renormalise SX c X)
  = fft2 SX (renormalise SX (atom_num_1 c) (atom_number SX (ifft2 SX (psi_1_k X))) (ifft2 SX (psi_1_k X))).
Proof. reflexivity. Qed.

Lemma renormalise_psi_2_k (c : @gconst xR) (X : @gstate xR) :
  psi_2_k (stage_renormalise SX c X)
  = fft2 SX (renormalise SX (atom_num_2 c) (atom_number SX (ifft2 SX (psi_2_k X))) (ifft2 SX (psi_2_k X))).
Proof. reflexivity. Qed.

(** Lines 93-94 with a divisor of [0]: [0 / 0] at each grid point, and the
    transform of the result is NaN everywhere. *)
Lemma renormalise_zero_divisor (N : xR) (f : @field xR) :
  atom_number SX f = Fin 0 -> nan_field (fft2 SX (renormalise SX N (atom_number SX f) f)).
Proof.
  intros E. rewrite E. apply fft2_nan_pt, renormalise_zero.
  assert (Hy : (127 < Ny)%nat) by (unfold Ny; lia).
  assert (Hx : (127 < Nx)%nat) by (unfold Nx; lia).
  exact (atom_number_zero_inv f E 127%nat 127%nat Hy Hx).
Qed.

(** An iteration whose divisor is [0] for a component returns that
    component NaN at every point. *)
Lemma zero_divisor_1_nan (c : @gconst xR) (st : @gstate xR) :
  fst (renorm_divisors SX st) = Fin 0 -> nan_field (psi_1_k (strang_iteration SX c st)).
Proof.
  intros E. rewrite renorm_divisors_stages in E. apply fst_pair_eq in E.
  rewrite strang_psi_1_k. apply fft2_nan, fix_phase_nan, ifft2_nan.
  rewrite renormalise_psi_1_k. apply renormalise_zero_divisor, E.
Qed.

Lemma zero_divisor_2_nan (c : @gconst xR) (st : @gstate xR) :
  snd (renorm_divisors SX st) = Fin 0 -> nan_field (psi_2_k (strang_iteration SX c st)).
Proof.
  intros E. rewrite renorm_divisors_stages in E. apply snd_pair_eq in E.
  rewrite strang_psi_2_k. apply fft2_nan, fix_phase_nan, ifft2_nan.
  rewrite renormalise_psi_2_k. apply renormalise_zero_divisor, E.
Qed.

(** One NaN component at the start of an iteration gives a NaN state at its end. *)
Lemma strang_nan_one (c : @gconst xR) (st : @gstate xR) :
  nan_field (psi_1_k st) \/ nan_field (psi_2_k st) -> nan_state (strang_iteration SX c st).
Proof.
  intros H. unfold strang_iteration.
  apply phase_lock_nan, stage_renormalise_nan, kinetic_half_nan, to_conjugate_nan.
  unfold stage_potential. cbn [psi_1 psi_2].
  apply potential_nan_one. cbn [psi_1 psi_2 stage_to_spatial stage_kinetic_half].
  destruct H as [H|H]; [left|right]; apply ifft2_nan, kinetic_nan, H.
Qed.

Lemma iter_add_nat {A : Type} (f : A -> A) (a b : nat) (x : A) :
  Nat.iter (a + b) f x = Nat.iter a f (Nat.iter b f x).
Proof.
  induction a as [|a IH]; [reflexivity|].
  rewrite Nat.add_succ_l, !Nat.iter_succ, IH. reflexivity.
Qed.

Lemma fst_pair {A B : Type} (a : A) (b : B) : fst (a, b) = a.
Proof. reflexivity. Qed.

Lemma iter_relax_strang (c : @gconst xR) (k : nat) (st : @gstate xR) :
  Nat.iter k (relax_body SX c) st = Nat.iter k (strang_iteration SX c) st.
Proof.
  induction k as [|k IH]; [reflexivity|].
  rewrite !Nat.iter_succ, IH, RelaxFacts.relax_body_strang. reflexivity.
Qed.

Lemma iter_nan (c : @gconst xR) (j : nat) (st : @gstate xR) :
  nan_state st -> nan_state (Nat.iter j (strang_iteration SX c) st).
Proof.
  induction j as [|j IH]; intros H; [exact H|].
  rewrite Nat.iter_succ. apply strang_nan, IH, H.
Qed.

(** ** C7 *)
(** C7 (counterexample): the claim that a zero recomputed atom number makes
    the relaxation abort, so that fewer than its 2000 iterations run, fails
    in floating point: from all-zero fields the first renormalisation
    divides by an atom number of [0], and [relax] still completes all
    [n_iter] iterations. *)
Lemma relax_zero_divisor_counterexample :
  ~ (forall (c : @gconst xR) (st : @gstate xR),
       fst (renorm_divisors SX st) = Fin 0 -> (snd (relax SX c st) < n_iter)%nat).
Proof.
  intros H.
  set (z := fun _ _ : nat => (Fin 0, Fin 0)).
  set (st0 := {| psi_1 := z; psi_2 := z; psi_1_k := z; psi_2_k := z |}).
  set (c0 := {| atom_num_1 := Fin 1; atom_num_2 := Fin 1;
                theta_fix_1 := fun _ _ => Fin 0; theta_fix_2 := fun _ _ => Fin 0 |}).
  specialize (H c0 st0).
  rewrite renorm_divisors_zero, relax_count in H by (intros m n; reflexivity).
  specialize (H eq_refl). lia.
Qed.

(** C7 (amended): nothing checks the divisor of the renormalisation. If,
    at an iteration [k] before the last, the atom number one component is
    divided by is [0], the division [0 / 0] makes that component NaN and
    raises nothing; at the next potential step the NaN reaches the other
    component through [g12], so the state is NaN everywhere two iterations
    later. The loop still runs all [n_iter] iterations and every field it
    returns is NaN at every point. *)
Theorem relax_zero_divisor (c : @gconst xR) (st : @gstate xR) (k : nat)
    (Hk : (k + 1 < n_iter)%nat)
    (H : fst (renorm_divisors SX (Nat.iter k (relax_body SX c) st)) = Fin 0 \/
         snd (renorm_divisors SX (Nat.iter k (relax_body SX c) st)) = Fin 0) :
  snd (relax SX c st) = n_iter /\
  nan_state (Nat.iter (k + 2) (relax_body SX c) st) /\
  nan_state (fst (relax SX c st)).
Proof.
  rewrite !iter_relax_strang in *.
  assert (N2 : nan_state (Nat.iter (k + 2) (strang_iteration SX c) st)).
  { replace (k + 2)%nat with (S (S k)) by lia. rewrite !Nat.iter_succ.
    apply strang_nan_one. destruct H as [H|H]; [left | right].
    - apply zero_divisor_1_nan, H.
    - apply zero_divisor_2_nan, H. }
  split; [apply relax_count|]. split; [exact N2|].
  unfold relax. rewrite RelaxFacts.relax_loop_iter, fst_pair.
  replace n_iter with ((n_iter - (k + 2)) + (k + 2))%nat by (unfold n_iter in *; lia).
  rewrite iter_add_nat. apply iter_nan, N2.
Qed.

(** From a zero first component and a finite second one: only the first
    divisor is known to be [0]. *)
Lemma relax_zero_divisor_witness :
  let z := fun _ _ : nat => (Fin 0, Fin 0) in
  let one := fun _ _ : nat => (Fin 1, Fin 0) in
  let st0 := {| psi_1 := z; psi_2 := one; psi_1_k := z; psi_2_k := one |} in
  let c0 := {| atom_num_1 := Fin 1; atom_num_2 := Fin 1;
               theta_fix_1 := fun _ _ => Fin 0; theta_fix_2 := fun _ _ => Fin 0 |} in
  (0 + 1 < n_iter)%nat /\
  snd (relax SX c0 st0) = n_iter /\
  nan_state (Nat.iter (0 + 2) (relax_body SX c0) st0) /\
  nan_state (fst (relax SX c0 st0)).
Proof.
  intros z one st0 c0.
  assert (Hk : (0 + 1 < n_iter)%nat) by (unfold n_iter; lia).
  split; [exact Hk|].
  apply (relax_zero_divisor c0 st0 0 Hk). left.
  change (Nat.iter 0 (relax_body SX c0) st0) with st0.
  apply renorm_divisor_1_zero; intros m n; [reflexivity|].
  split; eexists; reflexivity.
Defined.

End NaNFacts.


(** ** The inverse pair [fft2] / [ifft2] in exact arithmetic *)
Module InversionFacts.
Import Num Field FieldFacts ParsevalFacts.
Local Open Scope R_scope.

Lemma pair_R_eq (a b : R * R) : fst a = fst b -> snd a = snd b -> a = b.
Proof. destruct a, b. cbn. intros -> ->. reflexivity. Qed.

Lemma ksum_R_minus (n : nat) (f g : nat -> R) :
  ksum SR n (fun i => f i - g i) = ksum SR n f - ksum SR n g.
Proof. induction n as [|n IH]; [cbn; ring|]. rewrite !ksum_R_S, IH. ring. Qed.

Lemma ksum_R_swap4 (a b c d : nat) (F : nat -> nat -> nat -> nat -> R) :
  ksum SR a (fun k => ksum SR b (fun l => ksum SR c (fun p => ksum SR d (fun q => F k l p q))))
  = ksum SR c (fun p => ksum SR d (fun q => ksum SR a (fun k => ksum SR b (fun l => F k l p q)))).
Proof.
  transitivity (ksum SR a (fun k => ksum SR c (fun p => ksum SR b (fun l =>
                  ksum SR d (fun q => F k l p q))))).
  { apply ksum_R_ext. intros k _. apply ksum_R_swap. }
  transitivity (ksum SR c (fun p => ksum SR a (fun k => ksum SR b (fun l =>
                  ksum SR d (fun q => F k l p q))))).
  { apply ksum_R_swap. }
  apply ksum_R_ext. intros p _.
  transitivity (ksum SR a (fun k => ksum SR d (fun q => ksum SR b (fun l => F k l p q)))).
  { apply ksum_R_ext. intros k _. apply ksum_R_swap. }
  apply ksum_R_swap.
Qed.

Lemma csum4_R (a b c d : nat) (G : nat -> nat -> nat -> nat -> R * R) :
  csum SR a (fun k => csum SR b (fun l => csum SR c (fun p => csum SR d (fun q => G k l p q))))
  = (ksum SR a (fun k => ksum SR b (fun l => ksum SR c (fun p => ksum SR d (fun q => fst (G k l p q))))),
     ksum SR a (fun k => ksum SR b (fun l => ksum SR c (fun p => ksum SR d (fun q => snd (G k l p q)))))).
Proof.
  apply pair_R_eq; cbn [fst snd].
  - rewrite csum_R_fst. apply ksum_R_ext. intros k _.
    rewrite csum_R_fst. apply ksum_R_ext. intros l _.
    rewrite csum_R_fst. apply ksum_R_ext. intros p _.
    apply csum_R_fst.
  - rewrite csum_R_snd. apply ksum_R_ext. intros k _.
    rewrite csum_R_snd. apply ksum_R_ext. intros l _.
    rewrite csum_R_snd. apply ksum_R_ext. intros p _.
    apply csum_R_snd.
Qed.

Lemma csum_R_Cdiv_re (n : nat) (f : nat -> R * R) (a : R) :
  csum SR n (fun i => Cdiv_re SR (f i) a) = Cdiv_re SR (csum SR n f) a.
Proof.
  induction n as [|n IH].
  - unfold Cdiv_re. cbn. f_equal; unfold Rdiv; ring.
  - cbn [csum]. rewrite IH. unfold Cdiv_re, Cadd. cbn. f_equal; unfold Rdiv; ring.
Qed.

Lemma Cmul_Cdiv_re (z w : R * R) (a : R) :
  Cmul SR (Cdiv_re SR z a) w = Cdiv_re SR (Cmul SR z w) a.
Proof. unfold Cmul, Cdiv_re. cbn. f_equal; unfold Rdiv; ring. Qed.

Lemma twiddle_R (s : R) (k l m n : nat) :
  twiddle SR s k l m n
  = (cos (2 * PI * (INR (k * m) / INR Ny + INR (l * n) / INR Nx)),
     s * sin (2 * PI * (INR (k * m) / INR Ny + INR (l * n) / INR Nx))).
Proof. reflexivity. Qed.

Lemma twiddle_sym (s : R) (k l m n : nat) : twiddle SR s k l m n = twiddle SR s m n k l.
Proof. unfold twiddle. rewrite (Nat.mul_comm k m), (Nat.mul_comm l n). reflexivity. Qed.

(** Orthogonality of the two-dimensional Fourier basis on the grid. *)
Lemma orth2 (m n p q : nat) :
  (m < Ny)%nat -> (n < Nx)%nat -> (p < Ny)%nat -> (q < Nx)%nat ->
  ksum SR Ny (fun k => ksum SR Nx (fun l =>
    cos (2 * PI * (INR (k * m) / INR Ny + INR (l * n) / INR Nx)
         - 2 * PI * (INR (k * p) / INR Ny + INR (l * q) / INR Nx))))
  = (if Nat.eqb p m then INR Ny else 0) * (if Nat.eqb q n then INR Nx else 0) /\
  ksum SR Ny (fun k => ksum SR Nx (fun l =>
    sin (2 * PI * (INR (k * m) / INR Ny + INR (l * n) / INR Nx)
         - 2 * PI * (INR (k * p) / INR Ny + INR (l * q) / INR Nx)))) = 0.
Proof.
  intros Hm Hn Hp Hq.
  assert (HNy : (0 < Ny)%nat) by (unfold Ny; lia).
  assert (HNx : (0 < Nx)%nat) by (unfold Nx; lia).
  destruct (orth Ny m p HNy Hm Hp) as [C1 S1].
  destruct (orth Nx n q HNx Hn Hq) as [C2 S2].
  assert (E : forall k l : nat,
    2 * PI * (INR (k * m) / INR Ny + INR (l * n) / INR Nx)
    - 2 * PI * (INR (k * p) / INR Ny + INR (l * q) / INR Nx)
    = (2 * PI * INR (m * k) / INR Ny - 2 * PI * INR (p * k) / INR Ny)
      + (2 * PI * INR (n * l) / INR Nx - 2 * PI * INR (q * l) / INR Nx)).
  { intros k l. rewrite !mult_INR. unfold Rdiv. ring. }
  split.
  - transitivity (ksum SR Ny (fun k => ksum SR Nx (fun l =>
        cos (2 * PI * INR (m * k) / INR Ny - 2 * PI * INR (p * k) / INR Ny)
        * cos (2 * PI * INR (n * l) / INR Nx - 2 * PI * INR (q * l) / INR Nx)
      - sin (2 * PI * INR (m * k) / INR Ny - 2 * PI * INR (p * k) / INR Ny)
        * sin (2 * PI * INR (n * l) / INR Nx - 2 * PI * INR (q * l) / INR Nx)))).
    { apply ksum_R_ext. intros k _. apply ksum_R_ext. intros l _.
      rewrite E. apply cos_plus. }
    transitivity (ksum SR Ny (fun k =>
        cos (2 * PI * INR (m * k) / INR Ny - 2 * PI * INR (p * k) / INR Ny)
        * ksum SR Nx (fun l => cos (2 * PI * INR (n * l) / INR Nx - 2 * PI * INR (q * l) / INR Nx))
      - sin (2 * PI * INR (m * k) / INR Ny - 2 * PI * INR (p * k) / INR Ny)
        * ksum SR Nx (fun l => sin (2 * PI * INR (n * l) / INR Nx - 2 * PI * INR (q * l) / INR Nx)))).
    { apply ksum_R_ext. intros k _. rewrite <- !ksum_R_scale. apply ksum_R_minus. }
    rewrite ksum_R_minus, !ksum_R_scale_r, C1, C2, S1, S2. ring.
  - transitivity (ksum SR Ny (fun k => ksum SR Nx (fun l =>
        sin (2 * PI * INR (m * k) / INR Ny - 2 * PI * INR (p * k) / INR Ny)
        * cos (2 * PI * INR (n * l) / INR Nx - 2 * PI * INR (q * l) / INR Nx)
      + cos (2 * PI * INR (m * k) / INR Ny - 2 * PI * INR (p * k) / INR Ny)
        * sin (2 * PI * INR (n * l) / INR Nx - 2 * PI * INR (q * l) / INR Nx)))).
    { apply ksum_R_ext. intros k _. apply ksum_R_ext. intros l _.
      rewrite E. apply sin_plus. }
    transitivity (ksum SR Ny (fun k =>
        sin (2 * PI * INR (m * k) / INR Ny - 2 * PI * INR (p * k) / INR Ny)
        * ksum SR Nx (fun l => cos (2 * PI * INR (n * l) / INR Nx - 2 * PI * INR (q * l) / INR Nx))
      + cos (2 * PI * INR (m * k) / INR Ny - 2 * PI * INR (p * k) / INR Ny)
        * ksum SR Nx (fun l => sin (2 * PI * INR (n * l) / INR Nx - 2 * PI * INR (q * l) / INR Nx)))).
    { apply ksum_R_ext. intros k _. rewrite <- !ksum_R_scale. apply ksum_R_plus. }
    rewrite ksum_R_plus, !ksum_R_scale_r, C1, S1, S2. ring.
Qed.

Lemma ksum2_delta (A B m n : nat) (F : nat -> nat -> R) (a b : R) :
  (m < A)%nat -> (n < B)%nat ->
  ksum SR A (fun p => ksum SR B (fun q =>
    F p q * ((if Nat.eqb p m then a else 0) * (if Nat.eqb q n then b else 0))))
  = F m n * (a * b).
Proof.
  intros Hm Hn.
  transitivity (ksum SR A (fun p => if Nat.eqb p m then F p n * (a * b) else 0)).
  - apply ksum_R_ext. intros p _.
    transitivity (ksum SR B (fun q =>
      if Nat.eqb q n then F p q * ((if Nat.eqb p m then a else 0) * b) else 0)).
    + apply ksum_R_ext. intros q _. destruct (Nat.eqb q n); ring.
    + rewrite (ksum_R_delta B n (fun q => F p q * ((if Nat.eqb p m then a else 0) * b)) Hn).
      destruct (Nat.eqb p m); ring.
  - exact (ksum_R_delta A m (fun p => F p n * (a * b)) Hm).
Qed.

Lemma twiddle_prod (s t : R) (z : R * R) (k l m n p q : nat) :
  (s = 1 \/ s = -1) -> t = - s ->
  Cmul SR (Cmul SR z (twiddle SR s k l p q)) (twiddle SR t k l m n)
  = let D := 2 * PI * (INR (k * m) / INR Ny + INR (l * n) / INR Nx)
             - 2 * PI * (INR (k * p) / INR Ny + INR (l * q) / INR Nx) in
    (fst z * cos D + s * snd z * sin D, snd z * cos D - s * fst z * sin D).
Proof.
  intros Hs ->. rewrite !twiddle_R. cbv zeta. rewrite cos_minus, sin_minus.
  destruct z as [x y]. unfold Cmul. cbn [fst snd s_add s_sub s_mul SR].
  destruct Hs as [-> | ->]; f_equal; ring.
Qed.

(** Transforming with one sign and back with the other gives [Nx Ny] times
    the field, at every grid point. *)
Lemma dft2_inverse (s t : R) (f : field) (m n : nat) :
  (s = 1 \/ s = -1) -> t = - s -> (m < Ny)%nat -> (n < Nx)%nat ->
  csum SR Ny (fun k => csum SR Nx (fun l =>
    Cmul SR (csum SR Ny (fun p => csum SR Nx (fun q => Cmul SR (f p q) (twiddle SR s k l p q))))
            (twiddle SR t k l m n)))
  = (INR (Ny * Nx) * fst (f m n), INR (Ny * Nx) * snd (f m n)).
Proof.
  intros Hs Ht Hm Hn.
  transitivity (csum SR Ny (fun k => csum SR Nx (fun l => csum SR Ny (fun p => csum SR Nx (fun q =>
    Cmul SR (Cmul SR (f p q) (twiddle SR s k l p q)) (twiddle SR t k l m n)))))).
  { apply csum_R_ext. intros k _. apply csum_R_ext. intros l _.
    rewrite <- csum_R_Cmul_r. apply csum_R_ext. intros p _.
    rewrite <- csum_R_Cmul_r. reflexivity. }
  rewrite csum4_R. apply pair_R_eq; cbn [fst snd].
  - transitivity (ksum SR Ny (fun k => ksum SR Nx (fun l => ksum SR Ny (fun p => ksum SR Nx (fun q =>
      fst (f p q) * cos (2 * PI * (INR (k * m) / INR Ny + INR (l * n) / INR Nx)
                         - 2 * PI * (INR (k * p) / INR Ny + INR (l * q) / INR Nx))
      + s * snd (f p q) * sin (2 * PI * (INR (k * m) / INR Ny + INR (l * n) / INR Nx)
                         - 2 * PI * (INR (k * p) / INR Ny + INR (l * q) / INR Nx))))))).
    { apply ksum_R_ext. intros k _. apply ksum_R_ext. intros l _.
      apply ksum_R_ext. intros p _. apply ksum_R_ext. intros q _.
      rewrite (twiddle_prod s t (f p q) k l m n p q Hs Ht). reflexivity. }
    rewrite ksum_R_swap4.
    transitivity (ksum SR Ny (fun p => ksum SR Nx (fun q =>
      fst (f p q) * ((if Nat.eqb p m then INR Ny else 0) * (if Nat.eqb q n then INR Nx else 0))))).
    { apply ksum_R_ext. intros p Hp. apply ksum_R_ext. intros q Hq.
      destruct (orth2 m n p q Hm Hn Hp Hq) as [C S].
      rewrite <- C.
      transitivity (fst (f p q) * ksum SR Ny (fun k => ksum SR Nx (fun l =>
        cos (2 * PI * (INR (k * m) / INR Ny + INR (l * n) / INR Nx)
             - 2 * PI * (INR (k * p) / INR Ny + INR (l * q) / INR Nx))))
        + s * snd (f p q) * ksum SR Ny (fun k => ksum SR Nx (fun l =>
        sin (2 * PI * (INR (k * m) / INR Ny + INR (l * n) / INR Nx)
             - 2 * PI * (INR (k * p) / INR Ny + INR (l * q) / INR Nx))))).
      - rewrite <- !ksum_R_scale, <- ksum_R_plus. apply ksum_R_ext. intros k _.
        rewrite <- !ksum_R_scale, <- ksum_R_plus. reflexivity.
      - rewrite S. ring. }
    rewrite (ksum2_delta Ny Nx m n (fun p q => fst (f p q)) (INR Ny) (INR Nx) Hm Hn).
    rewrite mult_INR. ring.
  - transitivity (ksum SR Ny (fun k => ksum SR Nx (fun l => ksum SR Ny (fun p => ksum SR Nx (fun q =>
      snd (f p q) * cos (2 * PI * (INR (k * m) / INR Ny + INR (l * n) / INR Nx)
                         - 2 * PI * (INR (k * p) / INR Ny + INR (l * q) / INR Nx))
      - s * fst (f p q) * sin (2 * PI * (INR (k * m) / INR Ny + INR (l * n) / INR Nx)
                         - 2 * PI * (INR (k * p) / INR Ny + INR (l * q) / INR Nx))))))).
    { apply ksum_R_ext. intros k _. apply ksum_R_ext. intros l _.
      apply ksum_R_ext. intros p _. apply ksum_R_ext. intros q _.
      rewrite (twiddle_prod s t (f p q) k l m n p q Hs Ht). reflexivity. }
    rewrite ksum_R_swap4.
    transitivity (ksum SR Ny (fun p => ksum SR Nx (fun q =>
      snd (f p q) * ((if Nat.eqb p m then INR Ny else 0) * (if Nat.eqb q n then INR Nx else 0))))).
    { apply ksum_R_ext. intros p Hp. apply ksum_R_ext. intros q Hq.
      destruct (orth2 m n p q Hm Hn Hp Hq) as [C S].
      rewrite <- C.
      transitivity (snd (f p q) * ksum SR Ny (fun k => ksum SR Nx (fun l =>
        cos (2 * PI * (INR (k * m) / INR Ny + INR (l * n) / INR Nx)
             - 2 * PI * (INR (k * p) / INR Ny + INR (l * q) / INR Nx))))
        - s * fst (f p q) * ksum SR Ny (fun k => ksum SR Nx (fun l =>
        sin (2 * PI * (INR (k * m) / INR Ny + INR (l * n) / INR Nx)
             - 2 * PI * (INR (k * p) / INR Ny + INR (l * q) / INR Nx))))).
      - rewrite <- !ksum_R_scale, <- ksum_R_minus. apply ksum_R_ext. intros k _.
        rewrite <- !ksum_R_scale, <- ksum_R_minus. reflexivity.
      - rewrite S. ring. }
    rewrite (ksum2_delta Ny Nx m n (fun p q => snd (f p q)) (INR Ny) (INR Nx) Hm Hn).
    rewrite mult_INR. ring.
Qed.

Lemma INR_NyNx_neq_0 : INR (Ny * Nx) <> 0.
Proof. apply not_0_INR. unfold Ny, Nx. lia. Qed.

(** [ifft2(fft2(f)) = f] on the grid. *)
Lemma ifft2_fft2 (f : field) (m n : nat) :
  (m < Ny)%nat -> (n < Nx)%nat -> ifft2 SR (fft2 SR f) m n = f m n.
Proof.
  intros Hm Hn. unfold ifft2, fft2.
  rewrite (dft2_inverse (-1) 1 f m n) by (lra || assumption).
  pose proof INR_NyNx_neq_0 as HD.
  unfold Cdiv_re. cbn [fst snd s_div s_of_R SR].
  set (D := INR (Ny * Nx)) in *.
  apply pair_R_eq; cbn [fst snd s_div SR]; field; exact HD.
Qed.

(** [fft2(ifft2(g)) = g] on the grid. *)
Lemma fft2_ifft2 (g : field) (k l : nat) :
  (k < Ny)%nat -> (l < Nx)%nat -> fft2 SR (ifft2 SR g) k l = g k l.
Proof.
  intros Hk Hl. unfold fft2, ifft2.
  transitivity (Cdiv_re SR (csum SR Ny (fun m => csum SR Nx (fun n =>
    Cmul SR (csum SR Ny (fun p => csum SR Nx (fun q => Cmul SR (g p q) (twiddle SR 1 m n p q))))
            (twiddle SR (-1) m n k l)))) (INR (Ny * Nx))).
  { rewrite <- csum_R_Cdiv_re. apply csum_R_ext. intros m _.
    rewrite <- csum_R_Cdiv_re. apply csum_R_ext. intros n _.
    rewrite Cmul_Cdiv_re, (twiddle_sym (-1) k l m n). f_equal. f_equal.
    apply csum_R_ext. intros p _. apply csum_R_ext. intros q _.
    rewrite (twiddle_sym 1 p q m n). reflexivity. }
  rewrite (dft2_inverse 1 (-1) g k l) by (lra || assumption).
  pose proof INR_NyNx_neq_0 as HD.
  unfold Cdiv_re. cbn [fst snd].
  set (D := INR (Ny * Nx)) in *.
  apply pair_R_eq; cbn [fst snd s_div SR]; field; exact HD.
Qed.

(** Both transforms, and the atom number, read a field only on the grid. *)
Lemma fft2_ext (f g : field) (k l : nat) :
  (forall m n, (m < Ny)%nat -> (n < Nx)%nat -> f m n = g m n) ->
  fft2 SR f k l = fft2 SR g k l.
Proof.
  intros H. unfold fft2. apply csum_R_ext. intros m Hm. apply csum_R_ext. intros n Hn.
  rewrite H by assumption. reflexivity.
Qed.

Lemma ifft2_ext (f g : field) (m n : nat) :
  (forall k l, (k < Ny)%nat -> (l < Nx)%nat -> f k l = g k l) ->
  ifft2 SR f m n = ifft2 SR g m n.
Proof.
  intros H. unfold ifft2. f_equal. apply csum_R_ext. intros k Hk. apply csum_R_ext. intros l Hl.
  rewrite H by assumption. reflexivity.
Qed.

Lemma atom_number_ext (f g : field) :
  (forall m n, (m < Ny)%nat -> (n < Nx)%nat -> f m n = g m n) ->
  atom_number SR f = atom_number SR g.
Proof.
  intros H. rewrite !atom_number_R. apply ksum_R_ext. intros m Hm. apply ksum_R_ext. intros n Hn.
  rewrite H by assumption. reflexivity.
Qed.

End InversionFacts.

(** ** The split step in exact arithmetic: densities, norms, inverses *)
Module SplitStepFacts.
Import Num Field FieldFacts ParsevalFacts InversionFacts.
Local Open Scope R_scope.

(** [sum |g|^2] over the grid. *)
Local Abbreviation Ssq g :=
  (ksum SR Ny (fun k => ksum SR Nx (fun l => fst (g k l) * fst (g k l) + snd (g k l) * snd (g k l)))).

Lemma Cmul_dens (z w : R * R) :
  let v := Cmul SR z w in
  fst v * fst v + snd v * snd v = (fst z * fst z + snd z * snd z) * (fst w * fst w + snd w * snd w).
Proof. destruct z as [a b], w as [c d]. unfold Cmul. cbn. ring. Qed.

Lemma rot_dens (r a : R) :
  (r * cos a) * (r * cos a) + (r * sin a) * (r * sin a) = r * r.
Proof.
  pose proof (sin2_cos2 a) as E. unfold Rsqr in E.
  transitivity (r * r * (sin a * sin a + cos a * cos a)); [ring|]. rewrite E. ring.
Qed.

Lemma kin_R (g : field) (step : R * R) (k l : nat) :
  kinetic_evolution SR g step k l
  = Cmul SR (g k l)
      (exp (snd step * ((Kx k l ^ 2 + Ky k l ^ 2) / 2)) * cos (- (fst step * ((Kx k l ^ 2 + Ky k l ^ 2) / 2))),
       exp (snd step * ((Kx k l ^ 2 + Ky k l ^ 2) / 2)) * sin (- (fst step * ((Kx k l ^ 2 + Ky k l ^ 2) / 2)))).
Proof. unfold kinetic_evolution. rewrite Cexp_neg_i_R. reflexivity. Qed.

Lemma pot1_R (p1 p2 : field) (step : R * R) (a b c d e : R) (m n : nat) :
  let E := a * (Cabs SR (p1 m n) * Cabs SR (p1 m n)) + c * (Cabs SR (p2 m n) * Cabs SR (p2 m n)) - d in
  fst (potential_evolution SR p1 p2 step a b c d e) m n
  = Cmul SR (p1 m n) (exp (snd step * E) * cos (- (fst step * E)), exp (snd step * E) * sin (- (fst step * E))).
Proof. unfold potential_evolution. cbn [fst]. rewrite Cexp_neg_i_R. reflexivity. Qed.

Lemma pot2_R (p1 p2 : field) (step : R * R) (a b c d e : R) (m n : nat) :
  let E := b * (Cabs SR (p2 m n) * Cabs SR (p2 m n)) + c * (Cabs SR (p1 m n) * Cabs SR (p1 m n)) - e in
  snd (potential_evolution SR p1 p2 step a b c d e) m n
  = Cmul SR (p2 m n) (exp (snd step * E) * cos (- (fst step * E)), exp (snd step * E) * sin (- (fst step * E))).
Proof. unfold potential_evolution. cbn [snd]. rewrite Cexp_neg_i_R. reflexivity. Qed.

(** Each propagator multiplies a value by [exp(snd step * E)] times a phase. *)
Lemma kin_dens (g : field) (step : R * R) (k l : nat) :
  let z := kinetic_evolution SR g step k l in
  fst z * fst z + snd z * snd z
  = (fst (g k l) * fst (g k l) + snd (g k l) * snd (g k l))
    * (exp (snd step * ((Kx k l ^ 2 + Ky k l ^ 2) / 2)) * exp (snd step * ((Kx k l ^ 2 + Ky k l ^ 2) / 2))).
Proof. cbv zeta. rewrite kin_R, Cmul_dens. cbn [fst snd]. rewrite rot_dens. reflexivity. Qed.

Lemma pot1_dens (p1 p2 : field) (step : R * R) (a b c d e : R) (m n : nat) :
  let E := a * (Cabs SR (p1 m n) * Cabs SR (p1 m n)) + c * (Cabs SR (p2 m n) * Cabs SR (p2 m n)) - d in
  let z := fst (potential_evolution SR p1 p2 step a b c d e) m n in
  fst z * fst z + snd z * snd z
  = (fst (p1 m n) * fst (p1 m n) + snd (p1 m n) * snd (p1 m n)) * (exp (snd step * E) * exp (snd step * E)).
Proof. cbv zeta. rewrite pot1_R, Cmul_dens. cbn [fst snd]. rewrite rot_dens. reflexivity. Qed.

Lemma pot2_dens (p1 p2 : field) (step : R * R) (a b c d e : R) (m n : nat) :
  let E := b * (Cabs SR (p2 m n) * Cabs SR (p2 m n)) + c * (Cabs SR (p1 m n) * Cabs SR (p1 m n)) - e in
  let z := snd (potential_evolution SR p1 p2 step a b c d e) m n in
  fst z * fst z + snd z * snd z
  = (fst (p2 m n) * fst (p2 m n) + snd (p2 m n) * snd (p2 m n)) * (exp (snd step * E) * exp (snd step * E)).
Proof. cbv zeta. rewrite pot2_R, Cmul_dens. cbn [fst snd]. rewrite rot_dens. reflexivity. Qed.

(** Parseval's identity for [fft2]. *)
Lemma fft2_norm (f : field) : Ssq (fft2 SR f) = INR (Ny * Nx) * atom_number SR f.
Proof.
  pose proof (ifft2_norm (fft2 SR f)) as E.
  rewrite (atom_number_ext (ifft2 SR (fft2 SR f)) f) in E by (intros; apply ifft2_fft2; assumption).
  rewrite E. pose proof INR_NyNx_neq_0 as HD. set (D := INR (Ny * Nx)) in *. field. exact HD.
Qed.

Lemma Ssq_kin_real (g : field) (s : R) : Ssq (kinetic_evolution SR g (s, 0)) = Ssq g.
Proof.
  apply ksum_R_ext. intros k _. apply ksum_R_ext. intros l _. apply kinetic_abs.
Qed.

Lemma atom_pot1_real (p1 p2 : field) (s a b c d e : R) :
  atom_number SR (fst (potential_evolution SR p1 p2 (s, 0) a b c d e)) = atom_number SR p1.
Proof.
  rewrite !atom_number_R. apply ksum_R_ext. intros m _. apply ksum_R_ext. intros n _.
  rewrite pot1_dens. cbn [snd]. rewrite Rmult_0_l, exp_0. ring.
Qed.

Lemma atom_pot2_real (p1 p2 : field) (s a b c d e : R) :
  atom_number SR (snd (potential_evolution SR p1 p2 (s, 0) a b c d e)) = atom_number SR p2.
Proof.
  rewrite !atom_number_R. apply ksum_R_ext. intros m _. apply ksum_R_ext. intros n _.
  rewrite pot2_dens. cbn [snd]. rewrite Rmult_0_l, exp_0. ring.
Qed.

Lemma rt_body_unfold (step : R * R) (st : gstate) :
  let P := potential_evolution SR (ifft2 SR (kinetic_evolution SR (psi_1_k st) step))
             (ifft2 SR (kinetic_evolution SR (psi_2_k st) step)) step g1 g2 g12 mu_1 mu_2 in
  rt_body SR step st
  = {| psi_1 := fst P; psi_2 := snd P;
       psi_1_k := kinetic_evolution SR (fft2 SR (fst P)) step;
       psi_2_k := kinetic_evolution SR (fft2 SR (snd P)) step |}.
Proof. reflexivity. Qed.

(** A real step keeps the atom number of each component. *)
Lemma rt_body_atom (s : R) (st : gstate) :
  atom_number SR (ifft2 SR (psi_1_k (rt_body SR (s, 0) st))) = atom_number SR (ifft2 SR (psi_1_k st)) /\
  atom_number SR (ifft2 SR (psi_2_k (rt_body SR (s, 0) st))) = atom_number SR (ifft2 SR (psi_2_k st)).
Proof.
  rewrite rt_body_unfold. cbv zeta. cbn [psi_1_k psi_2_k].
  pose proof INR_NyNx_neq_0 as HD.
  split.
  - rewrite !ifft2_norm, Ssq_kin_real, fft2_norm, atom_pot1_real, ifft2_norm, Ssq_kin_real.
    set (D := INR (Ny * Nx)) in *. field. exact HD.
  - rewrite !ifft2_norm, Ssq_kin_real, fft2_norm, atom_pot2_real, ifft2_norm, Ssq_kin_real.
    set (D := INR (Ny * Nx)) in *. field. exact HD.
Qed.

Lemma rt_iter_atom (s : R) (k : nat) (st : gstate) :
  atom_number SR (ifft2 SR (psi_1_k (Nat.iter k (rt_body SR (s, 0)) st)))
  = atom_number SR (ifft2 SR (psi_1_k st)) /\
  atom_number SR (ifft2 SR (psi_2_k (Nat.iter k (rt_body SR (s, 0)) st)))
  = atom_number SR (ifft2 SR (psi_2_k st)).
Proof.
  induction k as [|k [IH1 IH2]]; [split; reflexivity|].
  rewrite Nat.iter_succ. destruct (rt_body_atom s (Nat.iter k (rt_body SR (s, 0)) st)) as [E1 E2].
  rewrite E1, E2. split; assumption.
Qed.

(** A phase rotation followed by the opposite one is the identity. *)
Lemma rot_inv (z : R * R) (a : R) :
  Cmul SR (Cmul SR z (cos a, sin a)) (cos (- a), sin (- a)) = z.
Proof.
  rewrite cos_neg, sin_neg. pose proof (sin2_cos2 a) as E. unfold Rsqr in E.
  destruct z as [x y]. unfold Cmul. cbn [fst snd s_add s_sub s_mul SR].
  apply pair_R_eq; cbn [fst snd].
  - transitivity (x * (sin a * sin a + cos a * cos a)); [ring|]. rewrite E. ring.
  - transitivity (y * (sin a * sin a + cos a * cos a)); [ring|]. rewrite E. ring.
Qed.

Lemma Cabs_rot (z : R * R) (a : R) : Cabs SR (Cmul SR z (cos a, sin a)) = Cabs SR z.
Proof.
  unfold Cabs. cbn [s_sqrt SR]. f_equal. pose proof (Cmul_dens z (cos a, sin a)) as E.
  cbv zeta in E. cbn [s_add s_mul SR]. rewrite E. cbn [fst snd].
  pose proof (sin2_cos2 a) as S. unfold Rsqr in S.
  replace (cos a * cos a + sin a * sin a) with 1 by lra. ring.
Qed.

Lemma real_rot (s e : R) : (exp (0 * e) * cos (- (s * e)), exp (0 * e) * sin (- (s * e)))
                           = (cos (- (s * e)), sin (- (s * e))).
Proof. rewrite Rmult_0_l, exp_0, !Rmult_1_l. reflexivity. Qed.

Lemma kin_inv (g : field) (s : R) (k l : nat) :
  kinetic_evolution SR (kinetic_evolution SR g (s, 0)) (- s, 0) k l = g k l.
Proof.
  rewrite !kin_R. cbn [fst snd]. rewrite !real_rot.
  set (e := (Kx k l ^ 2 + Ky k l ^ 2) / 2).
  replace (- (- s * e)) with (- (- (s * e))) by ring. apply rot_inv.
Qed.

(** The potential step with [-s] undoes the one with [s] at a point, when
    it is given the values the step with [s] produced there. *)
Lemma pot_inv (p1 p2 r1 r2 : field) (s a b c d e : R) (m n : nat) :
  r1 m n = fst (potential_evolution SR p1 p2 (s, 0) a b c d e) m n ->
  r2 m n = snd (potential_evolution SR p1 p2 (s, 0) a b c d e) m n ->
  fst (potential_evolution SR r1 r2 (- s, 0) a b c d e) m n = p1 m n /\
  snd (potential_evolution SR r1 r2 (- s, 0) a b c d e) m n = p2 m n.
Proof.
  intros H1 H2. rewrite pot1_R, pot2_R. cbv zeta. cbn [fst snd]. rewrite !real_rot.
  rewrite H1, H2, pot1_R, pot2_R. cbv zeta. cbn [fst snd]. rewrite !real_rot, !Cabs_rot.
  split.
  - set (E := a * (Cabs SR (p1 m n) * Cabs SR (p1 m n)) + c * (Cabs SR (p2 m n) * Cabs SR (p2 m n)) - d).
    replace (- (- s * E)) with (- (- (s * E))) by ring. apply rot_inv.
  - set (E := b * (Cabs SR (p2 m n) * Cabs SR (p2 m n)) + c * (Cabs SR (p1 m n) * Cabs SR (p1 m n)) - e).
    replace (- (- s * E)) with (- (- (s * E))) by ring. apply rot_inv.
Qed.

Lemma rt_body_inv (s : R) (st : gstate) (k l : nat) :
  (k < Ny)%nat -> (l < Nx)%nat ->
  psi_1_k (rt_body SR (- s, 0) (rt_body SR (s, 0) st)) k l = psi_1_k st k l /\
  psi_2_k (rt_body SR (- s, 0) (rt_body SR (s, 0) st)) k l = psi_2_k st k l.
Proof.
  intros Hk Hl.
  set (p1 := ifft2 SR (kinetic_evolution SR (psi_1_k st) (s, 0))).
  set (p2 := ifft2 SR (kinetic_evolution SR (psi_2_k st) (s, 0))).
  set (P := potential_evolution SR p1 p2 (s, 0) g1 g2 g12 mu_1 mu_2).
  set (A := rt_body SR (s, 0) st).
  assert (HA : A = {| psi_1 := fst P; psi_2 := snd P;
                      psi_1_k := kinetic_evolution SR (fft2 SR (fst P)) (s, 0);
                      psi_2_k := kinetic_evolution SR (fft2 SR (snd P)) (s, 0) |})
    by reflexivity.
  set (r1 := ifft2 SR (kinetic_evolution SR (psi_1_k A) (- s, 0))).
  set (r2 := ifft2 SR (kinetic_evolution SR (psi_2_k A) (- s, 0))).
  set (Q := potential_evolution SR r1 r2 (- s, 0) g1 g2 g12 mu_1 mu_2).
  assert (HB : rt_body SR (- s, 0) A
               = {| psi_1 := fst Q; psi_2 := snd Q;
                    psi_1_k := kinetic_evolution SR (fft2 SR (fst Q)) (- s, 0);
                    psi_2_k := kinetic_evolution SR (fft2 SR (snd Q)) (- s, 0) |})
    by reflexivity.
  (* back in the spatial domain, the second step sees the first one's output *)
  assert (Hr1 : forall m n, (m < Ny)%nat -> (n < Nx)%nat -> r1 m n = fst P m n).
  { intros m n Hm Hn. unfold r1. rewrite HA. cbn [psi_1_k].
    rewrite (ifft2_ext _ (fft2 SR (fst P))) by (intros; apply kin_inv).
    apply ifft2_fft2; assumption. }
  assert (Hr2 : forall m n, (m < Ny)%nat -> (n < Nx)%nat -> r2 m n = snd P m n).
  { intros m n Hm Hn. unfold r2. rewrite HA. cbn [psi_2_k].
    rewrite (ifft2_ext _ (fft2 SR (snd P))) by (intros; apply kin_inv).
    apply ifft2_fft2; assumption. }
  assert (HQ : forall m n, (m < Ny)%nat -> (n < Nx)%nat -> fst Q m n = p1 m n /\ snd Q m n = p2 m n).
  { intros m n Hm Hn. apply pot_inv; [apply Hr1 | apply Hr2]; assumption. }
  rewrite HB. cbn [psi_1_k psi_2_k]. rewrite !kin_R. cbn [fst snd]. rewrite !real_rot.
  rewrite (fft2_ext (fst Q) p1) by (intros m n Hm Hn; apply (HQ m n Hm Hn)).
  rewrite (fft2_ext (snd Q) p2) by (intros m n Hm Hn; apply (HQ m n Hm Hn)).
  unfold p1, p2. rewrite !fft2_ifft2 by assumption. rewrite !kin_R. cbn [fst snd]. rewrite !real_rot.
  set (e := (Kx k l ^ 2 + Ky k l ^ 2) / 2).
  replace (- (- s * e)) with (- (- (s * e))) by ring. split; apply rot_inv.
Qed.

End SplitStepFacts.

(** ** Atom numbers and phases through the relaxation, in exact arithmetic *)
Module RelaxNormFacts.
Import Num Field FieldFacts ParsevalFacts InversionFacts SplitStepFacts.
Local Open Scope R_scope.

(** A field that is not zero at some grid point. *)
Local Abbreviation nz g := (exists m n, (m < Ny)%nat /\ (n < Nx)%nat /\ g m n <> (0, 0)).

Lemma ksum_pos_exists (n : nat) (f : nat -> R) :
  0 < ksum SR n f -> exists i, (i < n)%nat /\ 0 < f i.
Proof.
  induction n as [|n IH]; intros H.
  - cbn [ksum s_of_R SR] in H. lra.
  - rewrite ksum_R_S in H. destruct (Rlt_dec 0 (f n)) as [Hp|Hp].
    + exists n. split; [lia | exact Hp].
    + destruct IH as [i [Hi Hf]]; [lra|]. exists i. split; [lia | exact Hf].
Qed.

Lemma dens_pos (z : R * R) : z <> (0, 0) -> 0 < fst z * fst z + snd z * snd z.
Proof. destruct z as [x y]. apply nonzero_norm. Qed.

Lemma nz_of_dens (z : R * R) : 0 < fst z * fst z + snd z * snd z -> z <> (0, 0).
Proof. intros H E. rewrite E in H. cbn in H. lra. Qed.

Lemma pair_zero_dec (z : R * R) : z = (0, 0) \/ z <> (0, 0).
Proof.
  destruct z as [x y].
  destruct (Req_dec x 0) as [Hx|Hx]; [destruct (Req_dec y 0) as [Hy|Hy]|].
  - left. subst. reflexivity.
  - right. intros E. injection E as E1 E2. lra.
  - right. intros E. injection E as E1 E2. lra.
Qed.

Lemma atom_pos_nz (g : field) : 0 < atom_number SR g -> nz g.
Proof.
  rewrite atom_number_R. intros H.
  destruct (ksum_pos_exists _ _ H) as [m [Hm H']].
  destruct (ksum_pos_exists _ _ H') as [n [Hn H'']].
  exists m, n. split; [exact Hm|]. split; [exact Hn|]. apply nz_of_dens. exact H''.
Qed.

Lemma NyNx_pos : 0 < INR (Ny * Nx).
Proof. apply lt_0_INR. unfold Ny, Nx. lia. Qed.

Lemma nz_atom_pos (g : field) : nz g -> 0 < atom_number SR g.
Proof. intros [m [n [Hm [Hn Hz]]]]. exact (atom_number_pos g m n Hm Hn Hz). Qed.

Lemma kin_nz (g : field) (step : R * R) : nz g -> nz (kinetic_evolution SR g step).
Proof.
  intros [k [l [Hk [Hl Hz]]]]. exists k, l. split; [exact Hk|]. split; [exact Hl|].
  apply nz_of_dens. rewrite kin_dens.
  apply Rmult_lt_0_compat; [apply dens_pos; exact Hz | apply Rmult_lt_0_compat; apply exp_pos].
Qed.

Lemma ifft2_nz (g : field) : nz g -> nz (ifft2 SR g).
Proof.
  intros H. apply atom_pos_nz. rewrite ifft2_norm.
  pose proof (nz_atom_pos g H) as P. rewrite atom_number_R in P.
  apply Rdiv_lt_0_compat; [exact P | exact NyNx_pos].
Qed.

Lemma nz_of_ifft2_atom (g : field) : 0 < atom_number SR (ifft2 SR g) -> nz g.
Proof.
  intros H. apply atom_pos_nz. rewrite ifft2_norm in H. rewrite atom_number_R.
  pose proof NyNx_pos as P.
  apply (Rmult_lt_reg_r (/ INR (Ny * Nx))); [apply Rinv_0_lt_compat; exact P|].
  rewrite Rmult_0_l. exact H.
Qed.

Lemma fft2_nz (f : field) : nz f -> nz (fft2 SR f).
Proof.
  intros H. apply atom_pos_nz. rewrite atom_number_R, fft2_norm.
  apply Rmult_lt_0_compat; [exact NyNx_pos | exact (nz_atom_pos f H)].
Qed.

Lemma pot1_nz (p1 p2 : field) (step : R * R) (a b c d e : R) :
  nz p1 -> nz (fst (potential_evolution SR p1 p2 step a b c d e)).
Proof.
  intros [m [n [Hm [Hn Hz]]]]. exists m, n. split; [exact Hm|]. split; [exact Hn|].
  apply nz_of_dens. rewrite pot1_dens.
  apply Rmult_lt_0_compat; [apply dens_pos; exact Hz | apply Rmult_lt_0_compat; apply exp_pos].
Qed.

Lemma pot2_nz (p1 p2 : field) (step : R * R) (a b c d e : R) :
  nz p2 -> nz (snd (potential_evolution SR p1 p2 step a b c d e)).
Proof.
  intros [m [n [Hm [Hn Hz]]]]. exists m, n. split; [exact Hm|]. split; [exact Hn|].
  apply nz_of_dens. rewrite pot2_dens.
  apply Rmult_lt_0_compat; [apply dens_pos; exact Hz | apply Rmult_lt_0_compat; apply exp_pos].
Qed.

Lemma fix_phase_dens (theta : nat -> nat -> R) (h : field) (m n : nat) :
  let z := fix_phase SR theta h m n in
  fst z * fst z + snd z * snd z = fst (h m n) * fst (h m n) + snd (h m n) * snd (h m n).
Proof.
  cbv zeta. destruct (pair_zero_dec (h m n)) as [Hz|Hz].
  - rewrite fix_phase_zero by exact Hz. rewrite Hz. reflexivity.
  - rewrite fix_phase_nonzero by exact Hz. cbn [fst snd]. rewrite rot_dens. apply Cabs_sq_R.
Qed.

Lemma atom_fix_phase (theta : nat -> nat -> R) (h : field) :
  atom_number SR (fix_phase SR theta h) = atom_number SR h.
Proof.
  rewrite !atom_number_R. apply ksum_R_ext. intros m _. apply ksum_R_ext. intros n _.
  apply fix_phase_dens.
Qed.

Lemma renorm_atom (a D : R) (f : field) :
  0 <= a -> 0 < D -> atom_number SR (renormalise SR a D f) = a / D * atom_number SR f.
Proof.
  intros Ha HD. rewrite !atom_number_R, <- ksum_R_scale. apply ksum_R_ext. intros m _.
  rewrite <- ksum_R_scale. apply ksum_R_ext. intros n _.
  unfold renormalise, Cdiv_re, Cscale. cbn [fst snd s_mul s_div s_sqrt SR].
  pose proof (sqrt_lt_R0 D HD) as Hs.
  assert (E0 : sqrt a * sqrt a = a) by (apply sqrt_sqrt; lra).
  assert (E1 : sqrt D * sqrt D = D) by (apply sqrt_sqrt; lra).
  transitivity ((sqrt a * sqrt a) / (sqrt D * sqrt D)
                * (fst (f m n) * fst (f m n) + snd (f m n) * snd (f m n))); [field; lra|].
  rewrite E0, E1. reflexivity.
Qed.

Lemma atom_ifft2_fft2 (f : field) : atom_number SR (ifft2 SR (fft2 SR f)) = atom_number SR f.
Proof. apply atom_number_ext. intros. apply ifft2_fft2; assumption. Qed.

Lemma relax_body_unfold (c : gconst) (st : gstate) :
  let P := potential_evolution SR (ifft2 SR (kinetic_evolution SR (psi_1_k st) (imag_dt SR)))
             (ifft2 SR (kinetic_evolution SR (psi_2_k st) (imag_dt SR)))
             (imag_dt SR) g1 g2 g12 mu_1 mu_2 in
  let f1 := ifft2 SR (kinetic_evolution SR (fft2 SR (fst P)) (imag_dt SR)) in
  let f2 := ifft2 SR (kinetic_evolution SR (fft2 SR (snd P)) (imag_dt SR)) in
  let h1 := fix_phase SR (theta_fix_1 c)
              (ifft2 SR (fft2 SR (renormalise SR (atom_num_1 c) (atom_number SR f1) f1))) in
  let h2 := fix_phase SR (theta_fix_2 c)
              (ifft2 SR (fft2 SR (renormalise SR (atom_num_2 c) (atom_number SR f2) f2))) in
  relax_body SR c st = {| psi_1 := h1; psi_2 := h2; psi_1_k := fft2 SR h1; psi_2_k := fft2 SR h2 |}.
Proof. reflexivity. Qed.

(** An iteration that starts from non-zero conjugate fields ends with the
    atom numbers [atom_num_1], [atom_num_2]. *)
Lemma relax_body_atoms (c : gconst) (st : gstate) :
  0 <= atom_num_1 c -> 0 <= atom_num_2 c -> nz (psi_1_k st) -> nz (psi_2_k st) ->
  atom_number SR (psi_1 (relax_body SR c st)) = atom_num_1 c /\
  atom_number SR (psi_2 (relax_body SR c st)) = atom_num_2 c /\
  atom_number SR (ifft2 SR (psi_1_k (relax_body SR c st))) = atom_num_1 c /\
  atom_number SR (ifft2 SR (psi_2_k (relax_body SR c st))) = atom_num_2 c.
Proof.
  intros H1 H2 Z1 Z2. rewrite relax_body_unfold. cbv zeta. cbn [psi_1 psi_2 psi_1_k psi_2_k].
  set (P := potential_evolution SR _ _ (imag_dt SR) g1 g2 g12 mu_1 mu_2).
  set (f1 := ifft2 SR (kinetic_evolution SR (fft2 SR (fst P)) (imag_dt SR))).
  set (f2 := ifft2 SR (kinetic_evolution SR (fft2 SR (snd P)) (imag_dt SR))).
  assert (D1 : 0 < atom_number SR f1).
  { apply nz_atom_pos. unfold f1. apply ifft2_nz, kin_nz, fft2_nz. unfold P.
    apply pot1_nz, ifft2_nz, kin_nz. exact Z1. }
  assert (D2 : 0 < atom_number SR f2).
  { apply nz_atom_pos. unfold f2. apply ifft2_nz, kin_nz, fft2_nz. unfold P.
    apply pot2_nz, ifft2_nz, kin_nz. exact Z2. }
  rewrite !atom_ifft2_fft2, !atom_fix_phase, !atom_ifft2_fft2, !renorm_atom by assumption.
  split; [|split; [|split]]; field; lra.
Qed.

Lemma relax_body_nz (c : gconst) (st : gstate) :
  0 < atom_num_1 c -> 0 < atom_num_2 c -> nz (psi_1_k st) -> nz (psi_2_k st) ->
  nz (psi_1_k (relax_body SR c st)) /\ nz (psi_2_k (relax_body SR c st)).
Proof.
  intros H1 H2 Z1 Z2.
  destruct (relax_body_atoms c st ltac:(lra) ltac:(lra) Z1 Z2) as [_ [_ [E1 E2]]].
  split; apply nz_of_ifft2_atom; [rewrite E1 | rewrite E2]; assumption.
Qed.

Lemma relax_iter_nz (c : gconst) (k : nat) (st : gstate) :
  0 < atom_num_1 c -> 0 < atom_num_2 c -> nz (psi_1_k st) -> nz (psi_2_k st) ->
  nz (psi_1_k (Nat.iter k (relax_body SR c) st)) /\ nz (psi_2_k (Nat.iter k (relax_body SR c) st)).
Proof.
  intros H1 H2 Z1 Z2. induction k as [|k [IH1 IH2]]; [split; assumption|].
  rewrite Nat.iter_succ. apply relax_body_nz; assumption.
Qed.

Lemma relax_fst (c : gconst) (st : gstate) :
  fst (relax SR c st) = relax_body SR c (Nat.iter 1999 (relax_body SR c) st).
Proof.
  unfold relax. rewrite RelaxFacts.relax_loop_iter. cbn [fst].
  change n_iter with (S 1999). rewrite Nat.iter_succ. reflexivity.
Qed.

Lemma ksum_R_const_c (n : nat) (a : R) : ksum SR n (fun _ => a) = INR n * a.
Proof. induction n as [|n IH]; [cbn; ring|]. rewrite ksum_R_S, IH, S_INR. ring. Qed.

Lemma psi_1_init_R (theta : nat -> nat -> R) (m n : nat) :
  psi_1_init SR theta m n = (sqrt (1 / 2) * cos (theta m n), sqrt (1 / 2) * sin (theta m n)).
Proof. unfold psi_1_init. rewrite Cexp_Ci_R. unfold Cmul, n0. cbn. f_equal; ring. Qed.

Lemma init_atoms (theta : nat -> nat -> R) :
  atom_number SR (psi_1_init SR theta) = INR (Ny * Nx) / 2 /\
  atom_number SR (psi_2_init SR) = INR (Ny * Nx) / 2.
Proof.
  assert (Eh : sqrt (1 / 2) * sqrt (1 / 2) = 1 / 2) by (apply sqrt_sqrt; lra).
  rewrite !atom_number_R. split.
  - transitivity (ksum SR Ny (fun _ => ksum SR Nx (fun _ => 1 / 2))).
    + apply ksum_R_ext. intros m _. apply ksum_R_ext. intros n _.
      rewrite psi_1_init_R. cbn [fst snd]. rewrite rot_dens. exact Eh.
    + rewrite !ksum_R_const_c, mult_INR. field.
  - transitivity (ksum SR Ny (fun _ => ksum SR Nx (fun _ => 1 / 2))).
    + apply ksum_R_ext. intros m _. apply ksum_R_ext. intros n _.
      unfold psi_2_init, n0. cbn. rewrite Rmult_0_l, Rplus_0_r. exact Eh.
    + rewrite !ksum_R_const_c, mult_INR. field.
Qed.

Lemma init_nz (theta : nat -> nat -> R) :
  nz (psi_1_k (gstate_init SR theta)) /\ nz (psi_2_k (gstate_init SR theta)).
Proof.
  destruct (init_atoms theta) as [E1 E2]. pose proof NyNx_pos as P.
  cbn [psi_1_k psi_2_k gstate_init]. split; apply fft2_nz, atom_pos_nz;
    [rewrite E1 | rewrite E2]; lra.
Qed.

(** The relaxed state the script stores and evolves in real time. *)
Lemma relaxed_atoms (theta : nat -> nat -> R) :
  let st := fst (relax SR (gconst_init SR theta) (gstate_init SR theta)) in
  atom_number SR (psi_1 st) = INR (Ny * Nx) / 2 /\
  atom_number SR (psi_2 st) = INR (Ny * Nx) / 2 /\
  atom_number SR (ifft2 SR (psi_1_k st)) = INR (Ny * Nx) / 2 /\
  atom_number SR (ifft2 SR (psi_2_k st)) = INR (Ny * Nx) / 2.
Proof.
  cbv zeta. rewrite relax_fst.
  destruct (init_atoms theta) as [E1 E2]. pose proof NyNx_pos as P.
  assert (A1 : atom_num_1 (gconst_init SR theta) = INR (Ny * Nx) / 2) by exact E1.
  assert (A2 : atom_num_2 (gconst_init SR theta) = INR (Ny * Nx) / 2) by exact E2.
  destruct (init_nz theta) as [Z1 Z2].
  destruct (relax_iter_nz (gconst_init SR theta) 1999 (gstate_init SR theta)
              ltac:(lra) ltac:(lra) Z1 Z2) as [Y1 Y2].
  destruct (relax_body_atoms (gconst_init SR theta) (Nat.iter 1999 (relax_body SR (gconst_init SR theta))
              (gstate_init SR theta)) ltac:(lra) ltac:(lra) Y1 Y2) as [R1 [R2 [R3 R4]]].
  rewrite R1, R2, R3, R4, A1, A2. repeat split.
Qed.

Lemma angle_polar (r t : R) :
  0 < r -> exists k : Z, Cangle SR (r * cos t, r * sin t) = t + 2 * IZR k * PI.
Proof.
  intros Hr. unfold Cangle. cbn [fst snd s_atan2 SR].
  assert (Hz : (r * cos t, r * sin t) <> (0, 0)).
  { apply nz_of_dens. cbn [fst snd]. rewrite rot_dens. nra. }
  destruct (atan2R_polar (r * cos t) (r * sin t) Hz) as [Hc Hs].
  rewrite rot_dens, sqrt_square in Hc, Hs by lra.
  apply same_cos_sin.
  - rewrite Hc. field. lra.
  - rewrite Hs. field. lra.
Qed.

Lemma angle_add (a b : R) (k j : Z) :
  a = b + 2 * IZR k * PI -> exists i : Z, a + 2 * IZR j * PI = b + 2 * IZR i * PI.
Proof. intros ->. exists (k + j)%Z. rewrite plus_IZR. ring. Qed.

(** After an iteration with the script's constants, [psi_1] is zero or has
    the imprinted phase at every point. *)
Lemma relax_body_phase (theta : nat -> nat -> R) (st : gstate) (m n : nat) :
  let v := psi_1 (relax_body SR (gconst_init SR theta) st) m n in
  v = (0, 0) \/ exists k : Z, Cangle SR v = theta m n + 2 * IZR k * PI.
Proof.
  cbv zeta. rewrite relax_body_unfold. cbv zeta. cbn [psi_1].
  set (h := ifft2 SR (fft2 SR _)).
  destruct (pair_zero_dec (h m n)) as [Hz|Hz].
  - left. apply fix_phase_zero. exact Hz.
  - right. rewrite fix_phase_nonzero by exact Hz.
    destruct (angle_polar (Cabs SR (h m n)) (theta_fix_1 (gconst_init SR theta) m n)
                (Cabs_pos _ Hz)) as [k Hk].
    rewrite Hk.
    assert (Ht : exists j : Z, theta_fix_1 (gconst_init SR theta) m n = theta m n + 2 * IZR j * PI).
    { cbn [theta_fix_1 gconst_init]. unfold theta_fix. rewrite psi_1_init_R.
      apply angle_polar. apply sqrt_lt_R0. lra. }
    destruct Ht as [j Hj]. destruct (angle_add _ _ j k Hj) as [i Hi]. exists i. exact Hi.
Qed.

End RelaxNormFacts.

(** ** The whole script in exact arithmetic *)
Module ScriptFacts.
Import Num Field FieldFacts InversionFacts SplitStepFacts RelaxNormFacts.
Local Open Scope R_scope.

Lemma NyNx_half : INR (Ny * Nx) / 2 = 8192.
Proof. rewrite INR_IZR_INZ. unfold Ny, Nx. cbn -[IZR]. lra. Qed.

Lemma frames_pos : (0 < Nt / Nframe)%nat.
Proof. apply Nat.ltb_lt. vm_compute. reflexivity. Qed.

Lemma rt_run_frames (st0 : gstate) (j : nat) :
  (j < Nt / Nframe)%nat ->
  exists s f1 f2,
    rt_run RealTime.io_always st0 = RealTime.Running s /\
    nth_error (RealTime.ds_1 (RealTime.file s)) j = Some f1 /\
    nth_error (RealTime.ds_2 (RealTime.file s)) j = Some f2 /\
    atom_number SR f1 = atom_number SR (ifft2 SR (psi_1_k st0)) /\
    atom_number SR f2 = atom_number SR (ifft2 SR (psi_2_k st0)).
Proof.
  unfold rt_run, RealTime.real_time. generalize Nt. intros n Hj.
  assert (HF : (0 < Nframe)%nat) by (unfold Nframe; lia).
  rewrite (RealTimeFacts.rt_loop_after _ _ _ _ _ _ Nframe st0 n HF).
  set (it := Nat.iter ((j + 1) * Nframe) (rt_body SR (real_dt SR)) st0).
  eexists. exists (ifft2 SR (psi_1_k it)), (ifft2 SR (psi_2_k it)).
  split; [reflexivity|].
  split; [apply RealTimeFacts.nth_error_after_1; exact Hj|].
  split; [apply RealTimeFacts.nth_error_after_2; exact Hj|].
  exact (rt_iter_atom dt ((j + 1) * Nframe) st0).
Qed.

Lemma relax_body_k (c : gconst) (st : gstate) :
  psi_1_k (relax_body SR c st) = fft2 SR (psi_1 (relax_body SR c st)).
Proof. reflexivity. Qed.

(** X1 (extra): the real-time step of lines 133-147, with the real step
    [dt] the loop passes, keeps the atom number [dx dy sum |ifft2(psi_k)|^2]
    of each component, after any number of steps. *)
Theorem rt_steps_conserve_atom_numbers (k : nat) (st : gstate) :
  atom_number SR (ifft2 SR (psi_1_k (Nat.iter k (rt_body SR (real_dt SR)) st)))
  = atom_number SR (ifft2 SR (psi_1_k st)) /\
  atom_number SR (ifft2 SR (psi_2_k (Nat.iter k (rt_body SR (real_dt SR)) st)))
  = atom_number SR (ifft2 SR (psi_2_k st)).
Proof. exact (rt_iter_atom dt k st). Qed.

(** X2 (extra): the real-time step is time-reversible: a step with the real
    step [-s] after one with [s] gives back both conjugate fields at every
    grid point. *)
Theorem rt_step_time_reversible (s : R) (st : gstate) (k l : nat) :
  (k < Ny)%nat -> (l < Nx)%nat ->
  psi_1_k (rt_body SR (- s, 0) (rt_body SR (s, 0) st)) k l = psi_1_k st k l /\
  psi_2_k (rt_body SR (- s, 0) (rt_body SR (s, 0) st)) k l = psi_2_k st k l.
Proof. apply rt_body_inv. Qed.

Lemma rt_step_time_reversible_witness :
  (0 < Ny)%nat /\ (0 < Nx)%nat /\
  psi_1_k (rt_body SR (- dt, 0) (rt_body SR (dt, 0) (gstate_init SR (fun _ _ => 0)))) 0%nat 0%nat
  = psi_1_k (gstate_init SR (fun _ _ => 0)) 0%nat 0%nat.
Proof.
  assert (Hy : (0 < Ny)%nat) by (unfold Ny; lia).
  assert (Hx : (0 < Nx)%nat) by (unfold Nx; lia).
  split; [exact Hy|]. split; [exact Hx|].
  exact (proj1 (rt_step_time_reversible dt (gstate_init SR (fun _ _ => 0)) 0%nat 0%nat Hy Hx)).
Defined.

(** X3 (extra): with storage that never fails, every frame [j < Nt / Nframe]
    the real-time loop writes to [wavefunction/psi_1] and
    [wavefunction/psi_2] has the atom number of the state the loop starts
    from. *)
Theorem rt_run_frames_atom_number (st0 : gstate) (j : nat) :
  (j < Nt / Nframe)%nat ->
  exists s f1 f2,
    rt_run RealTime.io_always st0 = RealTime.Running s /\
    nth_error (RealTime.ds_1 (RealTime.file s)) j = Some f1 /\
    nth_error (RealTime.ds_2 (RealTime.file s)) j = Some f2 /\
    atom_number SR f1 = atom_number SR (ifft2 SR (psi_1_k st0)) /\
    atom_number SR f2 = atom_number SR (ifft2 SR (psi_2_k st0)).
Proof. apply rt_run_frames. Qed.

Lemma rt_run_frames_atom_number_witness :
  (0 < Nt / Nframe)%nat /\
  exists s f1 f2,
    rt_run RealTime.io_always (gstate_init SR (fun _ _ => 0)) = RealTime.Running s /\
    nth_error (RealTime.ds_1 (RealTime.file s)) 0 = Some f1 /\
    nth_error (RealTime.ds_2 (RealTime.file s)) 0 = Some f2 /\
    atom_number SR f1 = atom_number SR (ifft2 SR (psi_1_k (gstate_init SR (fun _ _ => 0)))) /\
    atom_number SR f2 = atom_number SR (ifft2 SR (psi_2_k (gstate_init SR (fun _ _ => 0)))).
Proof.
  split; [exact frames_pos|].
  exact (rt_run_frames_atom_number (gstate_init SR (fun _ _ => 0)) 0%nat frames_pos).
Defined.

(** X4 (extra): an imaginary-time iteration (lines 73-102) that starts from
    conjugate fields that are not zero on the grid, with non-negative
    [atom_num_1] and [atom_num_2], ends with exactly those atom numbers, in
    [psi_1], [psi_2] and in [ifft2(psi_1_k)], [ifft2(psi_2_k)]. *)
Theorem relax_iteration_restores_atom_numbers (c : gconst) (st : gstate) :
  0 <= atom_num_1 c -> 0 <= atom_num_2 c ->
  (exists m n, (m < Ny)%nat /\ (n < Nx)%nat /\ psi_1_k st m n <> (0, 0)) ->
  (exists m n, (m < Ny)%nat /\ (n < Nx)%nat /\ psi_2_k st m n <> (0, 0)) ->
  atom_number SR (psi_1 (relax_body SR c st)) = atom_num_1 c /\
  atom_number SR (psi_2 (relax_body SR c st)) = atom_num_2 c /\
  atom_number SR (ifft2 SR (psi_1_k (relax_body SR c st))) = atom_num_1 c /\
  atom_number SR (ifft2 SR (psi_2_k (relax_body SR c st))) = atom_num_2 c.
Proof. apply relax_body_atoms. Qed.

Lemma relax_iteration_restores_atom_numbers_witness :
  let c := {| atom_num_1 := 1; atom_num_2 := 2;
              theta_fix_1 := fun _ _ => 0; theta_fix_2 := fun _ _ => 0 |} in
  let st := {| psi_1 := fun _ _ => (1, 0); psi_2 := fun _ _ => (1, 0);
               psi_1_k := fun _ _ => (1, 0); psi_2_k := fun _ _ => (1, 0) |} in
  atom_number SR (psi_1 (relax_body SR c st)) = 1 /\
  atom_number SR (psi_2 (relax_body SR c st)) = 2 /\
  atom_number SR (ifft2 SR (psi_1_k (relax_body SR c st))) = 1 /\
  atom_number SR (ifft2 SR (psi_2_k (relax_body SR c st))) = 2.
Proof.
  intros c st.
  assert (Hz : exists m n, (m < Ny)%nat /\ (n < Nx)%nat /\ (fun _ _ : nat => (1, 0)) m n <> (0, 0)).
  { exists 0%nat, 0%nat. split; [unfold Ny; lia|]. split; [unfold Nx; lia|].
    intros E. injection E as E. lra. }
  exact (relax_iteration_restores_atom_numbers c st ltac:(cbn; lra) ltac:(cbn; lra) Hz Hz).
Defined.

(** X5 (extra): whatever phase [get_phase] returns, the initial state of
    lines 56-57 gives [atom_num_1 = atom_num_2 = Nx Ny / 2 = 8192]
    (lines 62-63). *)
Theorem initial_atom_numbers (theta : nat -> nat -> R) :
  atom_num_1 (gconst_init SR theta) = 8192 /\ atom_num_2 (gconst_init SR theta) = 8192.
Proof.
  destruct (init_atoms theta) as [E1 E2]. rewrite NyNx_half in E1, E2. split; assumption.
Qed.

(** X6 (extra): for every phase [theta], the relaxed state the script stores
    in [initial_state/psi_1] and [initial_state/psi_2], and every frame the
    real-time loop writes (storage never failing), have atom number
    [8192] in each component. *)
Theorem script_atom_numbers (theta : nat -> nat -> R) (j : nat) :
  (j < Nt / Nframe)%nat ->
  atom_number SR (fst (fst (script RealTime.io_always theta))) = 8192 /\
  atom_number SR (snd (fst (script RealTime.io_always theta))) = 8192 /\
  exists s f1 f2,
    snd (script RealTime.io_always theta) = RealTime.Running s /\
    nth_error (RealTime.ds_1 (RealTime.file s)) j = Some f1 /\
    nth_error (RealTime.ds_2 (RealTime.file s)) j = Some f2 /\
    atom_number SR f1 = 8192 /\ atom_number SR f2 = 8192.
Proof.
  intros Hj. unfold script. cbv zeta. cbn [fst snd].
  destruct (relaxed_atoms theta) as [_ [_ [A1 A2]]]. cbv zeta in A1, A2.
  rewrite NyNx_half in A1, A2.
  split; [exact A1|]. split; [exact A2|].
  destruct (rt_run_frames (fst (relax SR (gconst_init SR theta) (gstate_init SR theta))) j Hj)
    as [s [f1 [f2 [H1 [H2 [H3 [H4 H5]]]]]]].
  exists s, f1, f2. split; [exact H1|]. split; [exact H2|]. split; [exact H3|].
  split; [rewrite H4; exact A1 | rewrite H5; exact A2].
Qed.

Lemma script_atom_numbers_witness :
  (0 < Nt / Nframe)%nat /\
  atom_number SR (fst (fst (script RealTime.io_always (fun _ _ => 0)))) = 8192.
Proof.
  split; [exact frames_pos|].
  exact (proj1 (script_atom_numbers (fun _ _ => 0) 0%nat frames_pos)).
Defined.

(** X7 (extra): at every grid point, the relaxed [psi_1] the script stores
    in [initial_state/psi_1] is zero or has the imprinted phase [theta]
    (modulo [2 pi]): the phase locking of lines 99-100 pins the vortex
    phase through the whole relaxation. *)
Theorem initial_state_phase (io_ok : nat -> RealTime.io_op -> bool) (theta : nat -> nat -> R)
    (m n : nat) :
  (m < Ny)%nat -> (n < Nx)%nat ->
  let v := fst (fst (script io_ok theta)) m n in
  v = (0, 0) \/ exists k : Z, Cangle SR v = theta m n + 2 * IZR k * PI.
Proof.
  intros Hm Hn. unfold script. cbv zeta. cbn [fst]. rewrite relax_fst, relax_body_k.
  rewrite ifft2_fft2 by assumption. apply relax_body_phase.
Qed.

Lemma initial_state_phase_witness :
  (0 < Ny)%nat /\ (0 < Nx)%nat /\
  (fst (fst (script RealTime.io_always (fun _ _ => 0))) 0%nat 0%nat = (0, 0) \/
   exists k : Z, Cangle SR (fst (fst (script RealTime.io_always (fun _ _ => 0))) 0%nat 0%nat)
                 = 0 + 2 * IZR k * PI).
Proof.
  assert (Hy : (0 < Ny)%nat) by (unfold Ny; lia).
  assert (Hx : (0 < Nx)%nat) by (unfold Nx; lia).
  split; [exact Hy|]. split; [exact Hx|].
  exact (initial_state_phase RealTime.io_always (fun _ _ => 0) 0%nat 0%nat Hy Hx).
Defined.

End ScriptFacts.

(** ** The conjugate grid and the progress messages *)
Module GridFacts.
Import Num Field.
Local Open Scope R_scope.

Lemma shift_freq (n : nat) :
  (n < 128)%nat ->
  INR ((n + 64) mod 128) - INR 64 = (if Nat.ltb n 64 then INR n else INR n - INR 128).
Proof.
  intros Hn. destruct (Nat.ltb_spec n 64) as [H|H].
  - rewrite Nat.mod_small by lia. rewrite plus_INR. ring.
  - replace (n + 64)%nat with ((n - 64) + 1 * 128)%nat by lia.
    rewrite Nat.Div0.mod_add, Nat.mod_small by lia. rewrite minus_INR by lia.
    replace 128%nat with (64 + 64)%nat by reflexivity. rewrite plus_INR. ring.
Qed.

(** X8 (extra): after [fftshift] (line 27), [Kx] and [Ky] hold at index [n]
    the wavenumber [2 pi n / (Nx dx)] for [n < Mx] and [2 pi (n - Nx) / (Nx dx)]
    otherwise (and the same along [y]): the frequency of the [n]-th basis
    function of [fft2], zero frequency at index [0]. *)
Theorem Kx_Ky_fft_frequencies (m n : nat) :
  (m < Ny)%nat -> (n < Nx)%nat ->
  Kx m n = (if Nat.ltb n Mx then INR n else INR n - INR Nx) * (2 * PI / (INR Nx * dx)) /\
  Ky m n = (if Nat.ltb m My then INR m else INR m - INR Ny) * (2 * PI / (INR Ny * dy)).
Proof.
  intros Hm Hn. unfold Kx, Ky, kx, ky, dkx, dky, dx, dy.
  change Mx with 64%nat. change My with 64%nat. change Nx with 128%nat in *.
  change Ny with 128%nat in *.
  rewrite (shift_freq n Hn), (shift_freq m Hm).
  replace (INR 128) with (2 * INR 64)
    by (replace 128%nat with (64 + 64)%nat by reflexivity; rewrite plus_INR; ring).
  assert (H64 : INR 64 <> 0) by (apply not_0_INR; lia).
  split; field; exact H64.
Qed.

Lemma Kx_Ky_fft_frequencies_witness :
  (0 < Ny)%nat /\ (0 < Nx)%nat /\ Kx 0%nat 0%nat = INR 0 * (2 * PI / (INR Nx * dx)).
Proof.
  assert (Hy : (0 < Ny)%nat) by (unfold Ny; lia).
  assert (Hx : (0 < Nx)%nat) by (unfold Nx; lia).
  split; [exact Hy|]. split; [exact Hx|].
  exact (proj1 (Kx_Ky_fft_frequencies 0%nat 0%nat Hy Hx)).
Defined.

(** X9 (extra): with [0 < Nframe], after [k] iterations the clock [t] is
    [k dt] and the loop has printed [ceil(k / Nframe)] messages, the [j]-th
    showing [t = j Nframe dt]. *)
Theorem clock_prints (Nf : nat) (dt : R) (k : nat) :
  (0 < Nf)%nat ->
  Clock.clock Nf dt k
  = (INR k * dt, map (fun j => INR (j * Nf) * dt) (seq 0 ((k + Nf - 1) / Nf))).
Proof.
  intros HF. induction k as [|k IH].
  - replace ((0 + Nf - 1) / Nf)%nat with 0%nat by (symmetry; apply Nat.div_small; lia).
    cbn [Clock.clock seq map]. f_equal. cbn [INR]. ring.
  - cbn [Clock.clock]. rewrite IH. cbv beta iota zeta. unfold np_mod.
    replace (Nf =? 0)%nat with false by (symmetry; apply Nat.eqb_neq; lia).
    pose proof (Nat.div_mod_eq k Nf) as Hk.
    pose proof (Nat.mod_bound_pos k Nf ltac:(lia) HF) as Hr.
    set (q := (k / Nf)%nat) in *. set (r := (k mod Nf)%nat) in *.
    rewrite S_INR.
    destruct (Nat.eqb_spec r 0) as [H0|H0].
    + replace ((k + Nf - 1) / Nf)%nat with q
        by (apply (Nat.div_unique _ _ q (Nf - 1)); lia).
      replace ((S k + Nf - 1) / Nf)%nat with (S q)
        by (apply (Nat.div_unique _ _ (S q) 0); [lia | rewrite Nat.mul_succ_r; lia]).
      rewrite seq_S, map_app. cbn [map Nat.add].
      replace (q * Nf)%nat with k by lia. f_equal. ring.
    + replace ((k + Nf - 1) / Nf)%nat with (S q)
        by (apply (Nat.div_unique _ _ (S q) (r - 1)); [lia | rewrite Nat.mul_succ_r; lia]).
      replace ((S k + Nf - 1) / Nf)%nat with (S q)
        by (apply (Nat.div_unique _ _ (S q) r); [lia | rewrite Nat.mul_succ_r; lia]).
      f_equal. ring.
Qed.

Lemma clock_prints_witness :
  (0 < 3)%nat /\ Clock.clock 3 1 7 = (INR 7 * 1, map (fun j => INR (j * 3) * 1) (seq 0 3)).
Proof. split; [lia|]. exact (clock_prints 3 1 7 ltac:(lia)). Defined.

End GridFacts.
